(** * Position-effect correction: profile loader and feature correctors

    A shallow embedding of [1.load/load.py] and
    [3.correct/correct_position_effect.py].

    Conventions of the embedding.
    - A float column is a list of [option Qc]: [Some q] is a finite number,
      taken as an exact rational, and [None] is a missing entry (NaN).
      Infinite inputs and rounding are outside the model.
    - A data frame is the ordered list of its labelled columns, over the
      default positional row index.  Data frames are mutable Python objects:
      they live in a heap and the functions receive and return references.
    - The third-party calls (pandas, scipy, statsmodels, pyarrow) are embedded
      by their documented behaviour on such columns. *)

From Stdlib Require Import QArith Qcanon ZArith Lia.
From Stdlib Require Import Strings.String Strings.Ascii.
From Stdlib Require Import Sorting.Sorted Sorting.Permutation.
From stdpp Require Import gmap strings list.

Local Open Scope Qc_scope.

(** ** Exact arithmetic on column entries *)

Module Num.

(** Equality test on canonical rationals. *)
Definition eqb (a b : Qc) : bool := Qeq_bool a b.

(** Order test on canonical rationals. *)
Definition leb (a b : Qc) : bool := Qle_bool a b.

(** Sum of a list of numbers ([numpy.sum]). *)
Fixpoint sum (l : list Qc) : Qc :=
  match l with
  | [] => 0
  | x :: l' => x + sum l'
  end.

(** Number of entries of a list, as a rational. *)
Fixpoint count (l : list Qc) : Qc :=
  match l with
  | [] => 0
  | _ :: l' => 1 + count l'
  end.

(** Arithmetic mean of a list; there is none for the empty list (NaN). *)
Definition mean (l : list Qc) : option Qc :=
  match l with
  | [] => None
  | _ => Some (sum l / count l)
  end.

(** Absolute value ([numpy.abs]). *)
Definition abs (a : Qc) : Qc := if leb 0 a then a else - a.

(** A number given by an integer. *)
Definition of_Z (z : Z) : Qc := Q2Qc (inject_Z z).

(** A number given as a fraction of integers. *)
Definition frac (n : Z) (d : positive) : Qc := Q2Qc (n # d).

(** Insertion into a list in ascending order. *)
Fixpoint insert (a : Qc) (l : list Qc) : list Qc :=
  match l with
  | [] => [a]
  | b :: l' => if leb a b then a :: l else b :: insert a l'
  end.

(** Ascending sort. *)
Fixpoint sort (l : list Qc) : list Qc :=
  match l with
  | [] => []
  | a :: l' => insert a (sort l')
  end.

(** [numpy.median]: the middle of the sorted values, the mean of the two
    middle ones for an even number of them, none (NaN) for no value. *)
Definition median (l : list Qc) : option Qc :=
  let s := sort l in
  let n := length s in
  match n with
  | O => None
  | _ =>
      if Nat.even n
      then Some ((nth (n / 2 - 1) s 0 + nth (n / 2) s 0) / of_Z 2)
      else Some (nth (n / 2) s 0)
  end.

End Num.

(** ** Series *)

(** One entry of a float column. *)
Abbreviation cell := (option Qc).

(** The entries of a series that are not missing, in order
    (what a reduction with [skipna=True] or [nan_policy="omit"] sees). *)
Fixpoint dropna (x : list cell) : list Qc :=
  match x with
  | [] => []
  | Some v :: x' => v :: dropna x'
  | None :: x' => dropna x'
  end.

(** [Series.mean()]: the mean of the entries that are not missing. *)
Definition series_mean (x : list cell) : cell := Num.mean (dropna x).

(** [x - s] for a series [x] and a scalar [s]; a missing operand gives a
    missing entry. *)
Definition series_sub_scalar (x : list cell) (s : cell) : list cell :=
  map (fun v => match v, s with
                | Some a, Some b => Some (a - b)
                | _, _ => None
                end) x.

(** ** Data frames *)

(** Row label used for grouping. *)
Inductive key :=
| KNum (q : Qc)
| KStr (s : string).

Definition key_eqb (a b : key) : bool :=
  match a, b with
  | KNum p, KNum q => Num.eqb p q
  | KStr s, KStr t => String.eqb s t
  | _, _ => false
  end.

(** The data of a column: floats, or strings (object dtype); [None] is a
    missing entry in both. *)
Inductive coldata :=
| Numeric (xs : list cell)
| Text (xs : list (option string)).

(** A data frame: its labelled columns, in order. *)
Definition DataFrame := list (string * coldata).

Definition nrows (c : coldata) : nat :=
  match c with
  | Numeric xs => length xs
  | Text xs => length xs
  end.

(** The group keys a column provides, one per row. *)
Definition keys_of (c : coldata) : list (option key) :=
  match c with
  | Numeric xs => map (option_map KNum) xs
  | Text xs => map (option_map KStr) xs
  end.

(** [df.columns] *)
Definition columns (df : DataFrame) : list string := map fst df.

(** The regular expression [^(?!Metadata_)] finds a match in a label exactly
    when the label does not start with [Metadata_]. *)
Definition is_feature (label : string) : bool :=
  negb (String.prefix "Metadata_" label).

(** [df.filter(regex="^(?!Metadata_)").columns] *)
Definition feature_cols_of (df : DataFrame) : list string :=
  List.filter is_feature (columns df).

(** [df[label]]: the first column with that label. *)
Fixpoint getitem (df : DataFrame) (label : string) : option coldata :=
  match df with
  | [] => None
  | (l, c) :: df' => if String.eqb l label then Some c else getitem df' label
  end.

(** [df[label] = c]: overwrite the column with that label where it stands,
    or append a new column. *)
Fixpoint setitem (df : DataFrame) (label : string) (c : coldata) : DataFrame :=
  match df with
  | [] => [(label, c)]
  | (l, c0) :: df' =>
      if String.eqb l label then (l, c) :: df'
      else (l, c0) :: setitem df' label c
  end.

(** [df[labels] = new], one column after the other. *)
Fixpoint setitems (df : DataFrame) (new : list (string * coldata)) : DataFrame :=
  match new with
  | [] => df
  | (l, c) :: new' => setitems (setitem df l c) new'
  end.

(** ** Group-by and transform *)

(** The rows of a column that belong to the group with key [k], in order. *)
Fixpoint group_rows (k : key) (ks : list (option key)) (vs : list cell)
  : list cell :=
  match ks, vs with
  | Some k' :: ks', v :: vs' =>
      if key_eqb k' k then v :: group_rows k ks' vs' else group_rows k ks' vs'
  | None :: ks', _ :: vs' => group_rows k ks' vs'
  | _, _ => []
  end.

(** Put the per-group results back at the rows of their group: row after row,
    take the next unused entry of the result of the row's group.  A row
    without a key belongs to no group and gets a missing entry. *)
Fixpoint scatter (ks : list (option key)) (res : key -> list cell)
  : list cell :=
  match ks with
  | [] => []
  | None :: ks' => None :: scatter ks' res
  | Some k :: ks' =>
      hd None (res k)
        :: scatter ks' (fun k' => if key_eqb k' k then tl (res k') else res k')
  end.

(** [df.groupby(by)[col].transform(f)] for one float column. *)
Definition transform (f : list cell -> list cell)
    (ks : list (option key)) (vs : list cell) : list cell :=
  scatter ks (fun k => f (group_rows k ks vs)).

(** The function given to [transform] by [subtract_well_mean]:
    [lambda x: x - x.mean()]. *)
Definition center (x : list cell) : list cell :=
  series_sub_scalar x (series_mean x).

(** ** Exceptions, the heap of data frames and the monad of commands *)

Inductive exn :=
| KeyError (label : string)
| TypeError (label : string)
| ValueError (label : string)
| PatsyError (label : string)
| AssertionError (msg : string)
| Dangling.

Inductive result (A : Type) :=
| Ok (a : A)
| Raise (e : exn).
Arguments Ok {A} a.
Arguments Raise {A} e.

(** A reference to a data frame object. *)
Definition ref := positive.

(** Commands that return a value or raise. *)
Class Monad (m : Type -> Type) : Type := {
  ret : forall {A}, A -> m A;
  bind : forall {A B}, m A -> (A -> m B) -> m B;
  lift : forall {A}, result A -> m A
}.

Notation "'let!' x ':=' m 'in' k" := (bind m (fun x => k))
  (at level 10, x name, m at level 100, k at level 200).
Notation "'do!' m 'in' k" := (bind m (fun _ => k))
  (at level 10, m at level 100, k at level 200).

(** A command on data frames reads and writes the heap and returns a value
    or raises; the heap it leaves is kept in both cases. *)
Definition M (A : Type) : Type :=
  gmap ref DataFrame -> result A * gmap ref DataFrame.

#[export] Instance M_monad : Monad M := {
  ret _ a := fun h => (Ok a, h);
  bind _ _ m f := fun h => match m h with
                           | (Ok a, h') => f a h'
                           | (Raise e, h') => (Raise e, h')
                           end;
  lift _ r := fun h => (r, h)
}.

(** Read the object behind a reference. *)
Definition deref (r : ref) : M DataFrame :=
  fun h => match h !! r with
           | Some df => (Ok df, h)
           | None => (Raise Dangling, h)
           end.

(** Mutate the object behind a reference. *)
Definition assign (r : ref) (df : DataFrame) : M unit :=
  fun h => (Ok tt, <[r := df]> h).

(** Apply a fallible function to every element, stopping at the first
    exception. *)
Fixpoint mapR {A B} (f : A -> result B) (l : list A) : result (list B) :=
  match l with
  | [] => Ok []
  | a :: l' =>
      match f a with
      | Raise e => Raise e
      | Ok b => match mapR f l' with
                | Raise e => Raise e
                | Ok bs => Ok (b :: bs)
                end
      end
  end.

(** ** Well-mean subtraction *)

(** [df.groupby(by_)[labels].transform(f)]: the transformed columns, labelled.
    A missing [by] column is a [KeyError]; a selection of no column leaves
    the transform nothing to put together, a [ValueError]; the function is
    numeric, so a string column is a [TypeError]. *)
Definition groupby_transform (df : DataFrame) (by_ : string)
    (labels : list string) (f : list cell -> list cell)
  : result (list (string * coldata)) :=
  match getitem df by_ with
  | None => Raise (KeyError by_)
  | Some kc =>
      match labels with
      | [] => Raise (ValueError "No objects to concatenate")
      | _ =>
          mapR (fun l => match getitem df l with
                         | Some (Numeric vs) =>
                             Ok (l, Numeric (transform f (keys_of kc) vs))
                         | Some (Text _) => Raise (TypeError l)
                         | None => Raise (KeyError l)
                         end) labels
      end
  end.

Definition subtract_well_mean (ann_df : ref) : M ref :=
  let! df := deref ann_df in
  let feature_cols := feature_cols_of df in
  let! new :=
    lift (groupby_transform df "Metadata_Well" feature_cols center) in
  do! assign ann_df (setitems df new) in
  ret ann_df.


(** ** MAD robustization *)

(** A float that may be infinite: the result of a division. *)
Inductive fval :=
| Fin (q : Qc)
| PInf
| NInf
| NaN.

(** Float division: a finite quotient for a divisor that is not zero;
    dividing by zero gives an infinity of the sign of the dividend and NaN
    for zero over zero; a missing operand gives NaN. *)
Definition fdiv (a b : cell) : fval :=
  match a, b with
  | Some x, Some y =>
      if Num.eqb y 0 then
        if Num.eqb x 0 then NaN
        else if Num.leb 0 x then PInf else NInf
      else Fin (x / y)
  | _, _ => NaN
  end.

(** [Series.median()]: the median of the entries that are not missing. *)
Definition series_median (x : list cell) : cell := Num.median (dropna x).

(** [x / s] for a series [x] and a scalar [s]. *)
Definition series_div_scalar (x : list cell) (s : cell) : list fval :=
  map (fun v => fdiv v s) x.

(** [scipy.stats.median_abs_deviation(x, nan_policy="omit", scale=scale)]:
    the median of the absolute deviations from the median, over the entries
    that are not missing, divided by [scale]. *)
Definition median_abs_deviation (x : list cell) (scale : Qc) : cell :=
  let d := dropna x in
  match Num.median d with
  | None => None
  | Some med =>
      match Num.median (map (fun v => Num.abs (v - med)) d) with
      | None => None
      | Some mad => Some (mad / scale)
      end
  end.

(** The constant [1.4826] of the source. *)
Definition c14826 : Qc := Num.frac 14826 10000.

(** [s + epsilon] for a scalar that may be NaN. *)
Definition scalar_add (s : cell) (epsilon : Qc) : cell :=
  option_map (fun m => m + epsilon) s.

Definition mad_robustize_col (col : list cell) (epsilon : Qc) : list fval :=
  let col_mad := median_abs_deviation col (1 / c14826) in
  series_div_scalar (series_sub_scalar col (series_median col))
                    (scalar_add col_mad epsilon).

(** ** Cell-count regression *)

(** The rows on which both the response [ys] and the regressor [xs] are
    present, as pairs (x, y): the rows the formula interface keeps. *)
Fixpoint complete_rows (ys xs : list cell) : list (Qc * Qc) :=
  match ys, xs with
  | Some y :: ys', Some x :: xs' => (x, y) :: complete_rows ys' xs'
  | _ :: ys', _ :: xs' => complete_rows ys' xs'
  | _, _ => []
  end.

Module Ols.

(** Mean of the regressor and of the response over the fitted rows. *)
Definition xbar (ps : list (Qc * Qc)) : Qc :=
  Num.sum (map fst ps) / Num.count (map fst ps).
Definition ybar (ps : list (Qc * Qc)) : Qc :=
  Num.sum (map snd ps) / Num.count (map snd ps).

(** Centred sums of squares and products. *)
Definition sxx (ps : list (Qc * Qc)) : Qc :=
  Num.sum (map (fun p => (fst p - xbar ps) * (fst p - xbar ps)) ps).
Definition sxy (ps : list (Qc * Qc)) : Qc :=
  Num.sum (map (fun p => (fst p - xbar ps) * (snd p - ybar ps)) ps).
Definition syy (ps : list (Qc * Qc)) : Qc :=
  Num.sum (map (fun p => (snd p - ybar ps) * (snd p - ybar ps)) ps).

(** Least-squares coefficients (intercept, slope) of [y ~ x] with an
    intercept, as the pseudo-inverse gives them: the usual solution when the
    regressor varies, and the solution of least norm when the regressor is
    constant (the design matrix has rank one). *)
Definition params (ps : list (Qc * Qc)) : Qc * Qc :=
  if Num.eqb (sxx ps) 0 then
    let c := xbar ps in
    (ybar ps / (1 + c * c), c * ybar ps / (1 + c * c))
  else
    let b := sxy ps / sxx ps in
    (ybar ps - b * xbar ps, b).

(** The residual of one row. *)
Definition resid1 (beta : Qc * Qc) (x y : Qc) : Qc :=
  y - (fst beta + snd beta * x).

(** [model.resid] put back on the rows of the frame: the residual on a
    fitted row, a missing entry on a row the fit dropped. *)
Fixpoint resid_rows (beta : Qc * Qc) (ys xs : list cell) : list cell :=
  match ys, xs with
  | Some y :: ys', Some x :: xs' => Some (resid1 beta x y) :: resid_rows beta ys' xs'
  | _ :: ys', _ :: xs' => None :: resid_rows beta ys' xs'
  | _ :: ys', [] => None :: resid_rows beta ys' []
  | [], _ => []
  end.

(** [ols(f"{feature} ~ {cc_col}", data=df).fit().resid], aligned on the
    rows of [df].  A fit without any complete row raises. *)
Definition resid (feature : string) (ys xs : list cell) : result (list cell) :=
  match complete_rows ys xs with
  | [] => Raise (ValueError feature)
  | ps => Ok (resid_rows (params ps) ys xs)
  end.

End Ols.

(** The residuals of the regression of column [feature] on column [cc_col]
    of [df], for a formula whose two names are read as the names of columns.
    A name of the formula that is not a column is an error of the formula.
    Outside this model, and standing here as an error: string columns, which
    the formula interface would code as categories, and names that the
    formula language reads as something other than a column name (a number
    such as [1], an expression). *)
Definition ols_resid (df : DataFrame) (feature cc_col : string)
  : result (list cell) :=
  match getitem df feature, getitem df cc_col with
  | Some (Numeric ys), Some (Numeric xs) => Ols.resid feature ys xs
  | None, _ => Raise (PatsyError feature)
  | _, None => Raise (PatsyError cc_col)
  | Some (Text _), _ => Raise (TypeError feature)
  | _, Some (Text _) => Raise (TypeError cc_col)
  end.

(** [df.rename(columns={old: new})] *)
Definition rename (df : DataFrame) (old new : string) : DataFrame :=
  map (fun lc => if String.eqb (fst lc) old then (new, snd lc) else lc) df.

(** The loop over the feature columns: every fit reads the frame as the
    earlier iterations left it.  The arithmetic is exact: a column fitted on
    itself becomes zeros here, where floating point leaves rounding errors
    for the later fits to read. *)
Fixpoint regress_loop (df : ref) (cc_col : string) (feature_cols : list string)
  : M unit :=
  match feature_cols with
  | [] => ret tt
  | feature :: rest =>
      let! d := deref df in
      let! model_resid := lift (ols_resid d feature cc_col) in
      do! assign df (setitem d feature (Numeric model_resid)) in
      regress_loop df cc_col rest
  end.

Definition regress_out_cell_counts (df : ref) (cc_col : string)
    (cc_rename : option string) : M ref :=
  let! d := deref df in
  let feature_cols := feature_cols_of d in
  do! regress_loop df cc_col feature_cols in
  do! match cc_rename with
      | Some new => let! d' := deref df in assign df (rename d' cc_col new)
      | None => ret tt
      end in
  ret df.


(** ** The loader *)

Module Loader.

(** The Python values an optional argument of [load] may hold. *)
Inductive pyval :=
| PyNone
| PyStr (s : string)
| PyList (l : list string)
| PyOther.

(** The messages [load] logs. *)
Inductive message :=
| LoadingColumns (columns : list string)
| LoadingProfilesFrom (dataset_source : string)
| FoundFiles (n : nat)
| LoadComponent (component : string)
| WritingTo (component output : string).

(** What [load] does to the outside, in order. *)
Inductive event :=
| LogInfo (m : message)
| DsDataset (source : string) (partitioning : list string)
| ToTable (columns : option (list string))
| WriteTable (output : string).

(** A dataset found in the object store. *)
Record remote := {
  files : list string;
  to_table : option (list string) -> result DataFrame
}.

(** A command of the loader returns a value or raises, and leaves a trace of
    events. *)
Definition T (A : Type) : Type := (list event * result A)%type.

#[export] Instance T_monad : Monad T := {
  ret _ a := ([], Ok a);
  bind _ _ m f := match m with
                  | (t, Ok a) => let (t', r) := f a in (t ++ t', r)
                  | (t, Raise e) => (t, Raise e)
                  end;
  lift _ r := ([], r)
}.

Definition emit (e : event) : T unit := ([e], Ok tt).

(** [assert b, msg] *)
Definition assert (b : bool) (msg : string) : T unit :=
  if b then ret tt else lift (Raise (AssertionError msg)).

(** [s.endswith(suffix)] *)
Definition endswith (s suffix : string) : bool :=
  let n := String.length s in
  let m := String.length suffix in
  (m <=? n)%nat && String.eqb (substring (n - m) m s) suffix.

(** [x in l] for strings. *)
Definition str_in (x : string) (l : list string) : bool :=
  existsb (String.eqb x) l.

(** The path [load] builds for the object store. *)
Definition dataset_source (dataset source : string) (batch plate : option string)
  : string :=
  let p := ("cellpainting-gallery/" ++ dataset ++ "/" ++ source
            ++ "/workspace/profiles")%string in
  match batch with
  | Some b =>
      let p := (p ++ "/" ++ b)%string in
      match plate with
      | Some pl => (p ++ "/" ++ pl)%string
      | None => p
      end
  | None => p
  end.

Section load.

(** The object store: what [ds.dataset] finds at a path under a
    partitioning, or the exception it raises. *)
Variable s3 : string -> list string -> result remote.

Definition load (dataset source component : string)
    (batch plate : option string) (columns output : pyval)
  : T (option DataFrame) :=
  do! match output with
      | PyNone => ret tt
      | PyStr o => assert (endswith o ".parquet") "`output` must end with .parquet"
      | _ => assert false "`output` must be a string"
      end in
  do! match columns with
      | PyNone => ret tt
      | PyList l => emit (LogInfo (LoadingColumns l))
      | _ => assert false "`columns` must be a list"
      end in
  do! assert (str_in component ["profiles"; "load_data_csv"]%string)
        "`component` must be 'profiles' or 'load_data_csv'" in
  do! match batch with
      | None => assert (match plate with None => true | Some _ => false end)
                  "`plate` must be None if `batch` is None"
      | Some _ => ret tt
      end in
  let src := dataset_source dataset source batch plate in
  do! emit (LogInfo (LoadingProfilesFrom src)) in
  let partitioning :=
    ["dataset"; "source"; "workspace"; component; "batch"; "plate"]%string in
  do! emit (DsDataset src partitioning) in
  let! found := lift (s3 src partitioning) in
  do! emit (LogInfo (FoundFiles (length (files found)))) in
  do! emit (LogInfo (LoadComponent component)) in
  let cols := match columns with PyList l => Some l | _ => None end in
  do! emit (ToTable cols) in
  let! df := lift (to_table found cols) in
  match output with
  | PyStr o =>
      do! emit (LogInfo (WritingTo component o)) in
      do! emit (WriteTable o) in
      ret None
  | _ => ret (Some df)
  end.

End load.

End Loader.

(** * Notions used to state the properties *)

(** Number of rows of the group with key [k]. *)
Fixpoint group_size (k : key) (ks : list (option key)) : nat :=
  match ks with
  | [] => O
  | Some k' :: ks' =>
      if key_eqb k' k then S (group_size k ks') else group_size k ks'
  | None :: ks' => group_size k ks'
  end.

(** The labels of a list are distinct. *)
Fixpoint distinct (l : list string) : bool :=
  match l with
  | [] => true
  | x :: l' => negb (existsb (String.eqb x) l') && distinct l'
  end.

(** All columns of a frame have the same number of rows. *)
Definition same_rows (df : DataFrame) : bool :=
  match df with
  | [] => true
  | (_, c) :: df' => forallb (fun lc => nrows (snd lc) =? nrows c)%nat df'
  end.

(** The frames the embedding stands for: distinct labels, columns of one
    length. *)
Definition wf_frame (df : DataFrame) : bool :=
  distinct (columns df) && same_rows df.

Definition present {A} (v : option A) : bool :=
  match v with
  | Some _ => true
  | None => false
  end.

(** A column without missing entries. *)
Definition complete_col (c : coldata) : bool :=
  match c with
  | Numeric xs => forallb present xs
  | Text xs => forallb present xs
  end.

(** A frame without missing values. *)
Definition no_missing (df : DataFrame) : bool :=
  forallb (fun lc => complete_col (snd lc)) df.

(** The frame of the example of well-mean subtraction, and the frame the
    example expects. *)
Definition frame_example : DataFrame :=
  [("Metadata_Well", Text [Some "A1"; Some "A1"; Some "A2"]);
   ("Feature_X", Numeric [Some (Num.of_Z 1); Some (Num.of_Z 3); Some (Num.of_Z 5)])]%string.

Definition frame_example_centered : DataFrame :=
  [("Metadata_Well", Text [Some "A1"; Some "A1"; Some "A2"]);
   ("Feature_X", Numeric [Some (Num.of_Z (-1)); Some (Num.of_Z 1); Some (Num.of_Z 0)])]%string.

(** A well of one row whose feature value is missing. *)
Definition frame_single_missing : DataFrame :=
  [("Metadata_Well", Text [Some "A1"]);
   ("Feature_X", Numeric [None])]%string.

(** What a row gets when every group is mapped entry by entry. *)
Definition row_result (g : key -> cell -> cell) (ko : option key) (v : cell)
  : cell :=
  match ko with
  | Some k => g k v
  | None => None
  end.

(** A column after well-mean subtraction under the keys of column [kc]. *)
Definition centered_col (kc c : coldata) : coldata :=
  match c with
  | Numeric vs => Numeric (transform center (keys_of kc) vs)
  | Text _ => c
  end.

(** The column that well-mean subtraction assigns to label [l]. *)
Definition centered_at (kc : coldata) (df : DataFrame) (l : string) : coldata :=
  match getitem df l with
  | Some c => centered_col kc c
  | None => Text []
  end.

(** What a call of [subtract_well_mean] on reference [r] to frame [df] in heap
    [h], returning [r'] and heap [h'], leaves of the frame: the same object,
    mutated and alone in being so, with its labels in order, its
    [Metadata_] columns and the length of every column kept, and every
    feature entry turned, row by row, into the entry minus the mean of the
    well of its row. *)
Definition well_mean_effect (h : gmap ref DataFrame) (r : ref) (df : DataFrame)
    (r' : ref) (h' : gmap ref DataFrame) : Prop :=
  r' = r
  /\ exists df',
      h' = <[r := df']> h
      /\ columns df' = columns df
      /\ (forall l, is_feature l = false -> getitem df' l = getitem df l)
      /\ (forall l c c', getitem df l = Some c -> getitem df' l = Some c' ->
                         nrows c' = nrows c)
      /\ (forall l vs vs' kc i k v,
             is_feature l = true ->
             getitem df l = Some (Numeric vs) ->
             getitem df' l = Some (Numeric vs') ->
             getitem df "Metadata_Well" = Some kc ->
             keys_of kc !! i = Some (Some k) ->
             vs !! i = Some v ->
             vs' !! i
             = Some (match v, series_mean (group_rows k (keys_of kc) vs) with
                     | Some a, Some m => Some (a - m)
                     | _, _ => None
                     end)).

(** The entries of [out] at the rows where [col] has a present entry, in
    order. *)
Fixpoint at_present (col : list cell) (out : list fval) : list fval :=
  match col, out with
  | Some _ :: col', o :: out' => o :: at_present col' out'
  | None :: col', _ :: out' => at_present col' out'
  | _, _ => []
  end.

(** A column with a missing entry, used to illustrate MAD robustization. *)
Definition col_example : list cell :=
  [Some (Num.of_Z 1); None; Some (Num.of_Z 2); Some (Num.of_Z 4)].

Module LoaderSpec.
Import Loader.

(** The preconditions of [load], one test per violation. *)
Definition bad_output (output : pyval) : bool :=
  match output with
  | PyNone => false
  | PyStr o => negb (endswith o ".parquet")
  | _ => true
  end.

Definition bad_columns (columns : pyval) : bool :=
  match columns with
  | PyNone | PyList _ => false
  | _ => true
  end.

Definition bad_component (component : string) : bool :=
  negb (str_in component ["profiles"; "load_data_csv"]%string).

Definition bad_plate (batch plate : option string) : bool :=
  match batch, plate with
  | None, Some _ => true
  | _, _ => false
  end.

Definition precondition_violated (component : string)
    (batch plate : option string) (columns output : pyval) : bool :=
  bad_output output || bad_columns columns || bad_component component
  || bad_plate batch plate.

(** The messages of the assertions of [load]. *)
Definition assertion_messages : list string :=
  ["`output` must be a string";
   "`output` must end with .parquet";
   "`columns` must be a list";
   "`component` must be 'profiles' or 'load_data_csv'";
   "`plate` must be None if `batch` is None"]%string.

(** An event that only logs. *)
Definition is_log (e : event) : bool :=
  match e with
  | LogInfo _ => true
  | _ => false
  end.

(** The queries a trace sends to the object store: path and partitioning. *)
Fixpoint queries (t : list event) : list (string * list string) :=
  match t with
  | [] => []
  | DsDataset src part :: t' => (src, part) :: queries t'
  | _ :: t' => queries t'
  end.

(** The path as the interface describes it: the profiles directory of the
    source, extended by the batch and the plate when given. *)
Definition profiles_path (dataset source : string) (batch plate : option string)
  : string :=
  ("cellpainting-gallery/" ++ dataset ++ "/" ++ source ++ "/workspace/profiles"
   ++ match batch with
      | Some b => "/" ++ b ++ match plate with
                              | Some p => "/" ++ p
                              | None => ""
                              end
      | None => ""
      end)%string.

(** An object store with one file under every path. *)
Definition store_example (src : string) (partitioning : list string)
  : result remote :=
  Ok {| files := ["part-0.parquet"%string];
        to_table := fun _ => Ok frame_example |}.

End LoaderSpec.

(** The slope of the fitted line: zero when the regressor is constant. *)
Definition fitted_slope (ps : list (Qc * Qc)) : Qc :=
  if Num.eqb (Ols.sxx ps) 0 then 0 else Ols.sxy ps / Ols.sxx ps.

(** The residuals of the rows of a fit, paired with the regressor. *)
Definition resid_pairs (beta : Qc * Qc) (ps : list (Qc * Qc)) : list (Qc * Qc) :=
  map (fun p => (fst p, Ols.resid1 beta (fst p) (snd p))) ps.

(** The numerator of the Pearson correlation of column [ys] with column [xs]:
    the sum of the products of their deviations from their means, over the
    rows on which both are present.  The correlation is this sum over the
    root of the product of [Ols.sxx] and [Ols.syy] of those rows; it exists
    when neither is zero, and is zero exactly when this sum is. *)
Definition codeviation (ys xs : list cell) : Qc :=
  Ols.sxy (complete_rows ys xs).

(** A frame whose cell-count column [Cells] is one of its features. *)
Definition frame_cells : DataFrame :=
  [("Cells", Numeric [Some (Num.of_Z 1); Some (Num.of_Z 2); Some (Num.of_Z 3)]);
   ("Feature_X", Numeric [Some (Num.of_Z 1); Some (Num.of_Z 2); Some (Num.of_Z 4)])]%string.

(** A frame whose cell-count column is a metadata column. *)
Definition frame_counts : DataFrame :=
  [("Metadata_Count", Numeric [Some (Num.of_Z 1); Some (Num.of_Z 2); Some (Num.of_Z 3)]);
   ("Feature_X", Numeric [Some (Num.of_Z 1); Some (Num.of_Z 2); Some (Num.of_Z 4)])]%string.

(** The Pearson correlation of two columns exists: over the rows on which
    both are present, neither column is constant. *)
Definition pearson_defined (ys xs : list cell) : bool :=
  negb (Num.eqb (Ols.sxx (complete_rows ys xs)) 0)
  && negb (Num.eqb (Ols.syy (complete_rows ys xs)) 0).

(** The entry [transform center] leaves at a row of group [k] that held [v]
    in column [vs]. *)
Definition center_entry (ks : list (option key)) (vs : list cell)
    (k : key) (v : cell) : cell :=
  match v, series_mean (group_rows k ks vs) with
  | Some a, Some m => Some (a - m)
  | _, _ => None
  end.

(** Column [vs] with the offset [off k] added to every present entry of a row
    of well [k]. *)
Definition shift_by (off : key -> Qc) (ks : list (option key)) (vs : list cell)
  : list cell :=
  zip_with (fun ko v => match ko, v with
                        | Some k, Some a => Some (a + off k)
                        | _, _ => v
                        end) ks vs.

(** The finite entries of a column of quotients, in order. *)
Fixpoint fin_values (x : list fval) : list Qc :=
  match x with
  | [] => []
  | Fin q :: x' => q :: fin_values x'
  | _ :: x' => fin_values x'
  end.

(** The label a column has after [regress_out_cell_counts]: the new name for
    the cell-count column when one is given, its own otherwise. *)
Definition relabel (cc_col : string) (cc_rename : option string) (l : string)
  : string :=
  match cc_rename with
  | Some new => if String.eqb l cc_col then new else l
  | None => l
  end.

Module LoaderOutcome.
Import Loader.

(** The files a trace writes. *)
Fixpoint writes (t : list event) : list string :=
  match t with
  | [] => []
  | WriteTable o :: t' => o :: writes t'
  | _ :: t' => writes t'
  end.

(** The table reads of a trace, each with the projection it asks for. *)
Fixpoint reads (t : list event) : list (option (list string)) :=
  match t with
  | [] => []
  | ToTable cols :: t' => cols :: reads t'
  | _ :: t' => reads t'
  end.

(** The projection [load] passes to the table read. *)
Definition projection (columns : pyval) : option (list string) :=
  match columns with
  | PyList l => Some l
  | _ => None
  end.

(** What [load] logs between the checks and the query. *)
Definition preamble (columns : pyval) (src : string) : list event :=
  match columns with
  | PyList l => [LogInfo (LoadingColumns l)]
  | _ => []
  end ++ [LogInfo (LoadingProfilesFrom src)].

(** The partitioning [load] declares for a component. *)
Definition partitioning (component : string) : list string :=
  ["dataset"; "source"; "workspace"; component; "batch"; "plate"]%string.

(** An object store that finds nothing. *)
Definition store_empty (src : string) (part : list string) : result remote :=
  Raise (ValueError src).

End LoaderOutcome.

(** * Properties *)

(** ** Arithmetic *)

Lemma Num_eqb_eq (a b : Qc) : Num.eqb a b = true <-> a = b.
Proof.
  unfold Num.eqb. rewrite Qeq_bool_iff. split.
  - apply Qc_is_canon.
  - intros ->. reflexivity.
Qed.

Lemma Num_eqb_refl (a : Qc) : Num.eqb a a = true.
Proof. now apply Num_eqb_eq. Qed.

Lemma Num_eqb_neq (a b : Qc) : Num.eqb a b = false <-> a <> b.
Proof.
  rewrite <- Num_eqb_eq. destruct (Num.eqb a b); split; congruence.
Qed.

Lemma key_eqb_eq (a b : key) : key_eqb a b = true <-> a = b.
Proof.
  destruct a as [p|s], b as [q|t]; simpl; try (split; congruence).
  - rewrite Num_eqb_eq. split; congruence.
  - rewrite String.eqb_eq. split; congruence.
Qed.

Lemma key_eqb_refl (a : key) : key_eqb a a = true.
Proof. now apply key_eqb_eq. Qed.

Lemma key_eqb_sym (a b : key) : key_eqb a b = key_eqb b a.
Proof.
  destruct (key_eqb a b) eqn:E, (key_eqb b a) eqn:F; try reflexivity.
  - apply key_eqb_eq in E. subst. rewrite key_eqb_refl in F. discriminate.
  - apply key_eqb_eq in F. subst. rewrite key_eqb_refl in E. discriminate.
Qed.

Lemma Qc_0_le_1 : 0 <= 1.
Proof. discriminate. Qed.

Lemma Qc_0_lt_1 : 0 < 1.
Proof. reflexivity. Qed.

Lemma count_nonneg (l : list Qc) : 0 <= Num.count l.
Proof.
  induction l as [|a l IH]; simpl.
  - apply Qcle_refl.
  - replace 0 with (0 + 0) by ring.
    apply Qcplus_le_compat; [apply Qc_0_le_1 | exact IH].
Qed.

Lemma count_pos (a : Qc) (l : list Qc) : 0 < Num.count (a :: l).
Proof.
  simpl. apply Qclt_le_trans with (1 + 0).
  - replace (1 + 0) with 1 by ring. apply Qc_0_lt_1.
  - apply Qcplus_le_compat; [apply Qcle_refl | apply count_nonneg].
Qed.

Lemma count_cons_neq_0 (a : Qc) (l : list Qc) : Num.count (a :: l) <> 0.
Proof.
  intros E. pose proof (count_pos a l) as H. rewrite E in H.
  now apply Qclt_not_eq in H.
Qed.

Lemma count_map {A} (f : A -> Qc) (g : A -> Qc) (l : list A) :
  Num.count (map f l) = Num.count (map g l).
Proof. induction l; simpl; congruence. Qed.

Lemma sum_map_sub (m : Qc) (l : list Qc) :
  Num.sum (map (fun v => v - m) l) = Num.sum l - Num.count l * m.
Proof.
  induction l as [|a l IH]; simpl.
  - ring.
  - rewrite IH. ring.
Qed.

Lemma count_map_id (f : Qc -> Qc) (l : list Qc) :
  Num.count (map f l) = Num.count l.
Proof. induction l; simpl; congruence. Qed.

Lemma mean_nonempty (l : list Qc) :
  l <> [] -> Num.mean l = Some (Num.sum l / Num.count l).
Proof. destruct l; [congruence | reflexivity]. Qed.

(** The deviations from the mean have mean zero. *)
Lemma mean_centered (l : list Qc) (m : Qc) :
  Num.mean l = Some m -> Num.mean (map (fun v => v - m) l) = Some 0.
Proof.
  destruct l as [|a l]; [discriminate|].
  rewrite mean_nonempty by discriminate. intros [= <-].
  set (m := Num.sum (a :: l) / Num.count (a :: l)).
  rewrite mean_nonempty by discriminate.
  rewrite sum_map_sub, count_map_id. subst m.
  pose proof (count_cons_neq_0 a l) as Hn.
  simpl Num.sum in *. simpl Num.count in *.
  f_equal. field. exact Hn.
Qed.

(** ** Series *)

Lemma length_series_sub_scalar (x : list cell) (s : cell) :
  length (series_sub_scalar x s) = length x.
Proof. unfold series_sub_scalar. apply length_map. Qed.

Lemma length_center (x : list cell) : length (center x) = length x.
Proof. apply length_series_sub_scalar. Qed.

Lemma dropna_sub (x : list cell) (m : Qc) :
  dropna (series_sub_scalar x (Some m)) = map (fun v => v - m) (dropna x).
Proof.
  induction x as [|[v|] x IH]; simpl; [reflexivity | | exact IH].
  now rewrite <- IH.
Qed.

Lemma series_mean_None (x : list cell) :
  series_mean x = None <-> dropna x = [].
Proof.
  unfold series_mean. destruct (dropna x); simpl; split; congruence.
Qed.

(** A centred series with a present entry has mean zero. *)
Lemma series_mean_center (x : list cell) :
  dropna x <> [] -> series_mean (center x) = Some 0.
Proof.
  intros Hx. unfold center.
  destruct (series_mean x) as [m|] eqn:E.
  - unfold series_mean. rewrite dropna_sub. now apply mean_centered.
  - now apply series_mean_None in E.
Qed.

(** ** Groups *)

Lemma length_scatter (ks : list (option key)) :
  forall res, length (scatter ks res) = length ks.
Proof.
  induction ks as [|[k|] ks IH]; intros res; simpl; auto.
Qed.

Lemma length_group_rows (k : key) (ks : list (option key)) :
  forall vs, length vs = length ks ->
             length (group_rows k ks vs) = group_size k ks.
Proof.
  induction ks as [|[k'|] ks IH]; intros [|v vs] Hl; simpl in *;
    try discriminate; try reflexivity.
  - destruct (key_eqb k' k); simpl; auto.
  - auto.
Qed.

(** Reading a group off the scattered results gives back the result of that
    group. *)
Lemma group_rows_scatter (k : key) (ks : list (option key)) :
  forall res, length (res k) = group_size k ks ->
              group_rows k ks (scatter ks res) = res k.
Proof.
  induction ks as [|[k'|] ks IH]; intros res Hl; simpl in *.
  - now destruct (res k).
  - destruct (key_eqb k' k) eqn:E.
    + apply key_eqb_eq in E. subst k'.
      destruct (res k) as [|r rs] eqn:Er; [discriminate|].
      simpl. f_equal. rewrite IH; rewrite key_eqb_refl, Er; simpl in *; congruence.
    + rewrite IH; rewrite (key_eqb_sym k k'), E; auto.
  - now apply IH.
Qed.

Lemma group_rows_transform (f : list cell -> list cell) (k : key)
    (ks : list (option key)) (vs : list cell) :
  (forall x, length (f x) = length x) ->
  length vs = length ks ->
  group_rows k ks (transform f ks vs) = f (group_rows k ks vs).
Proof.
  intros Hf Hl. unfold transform.
  apply (group_rows_scatter k ks (fun k0 => f (group_rows k0 ks vs))).
  rewrite Hf. now apply length_group_rows.
Qed.

Lemma scatter_map (g : key -> cell -> cell) (ks : list (option key)) :
  forall vs res,
    length vs = length ks ->
    (forall k, res k = map (g k) (group_rows k ks vs)) ->
    scatter ks res = zip_with (row_result g) ks vs.
Proof.
  induction ks as [|[k'|] ks IH]; intros [|v vs] res Hl Hres; simpl in *;
    try discriminate; try reflexivity.
  - f_equal.
    + rewrite Hres, key_eqb_refl. reflexivity.
    + apply IH; [congruence|]. intros k. rewrite Hres.
      rewrite (key_eqb_sym k k'). now destruct (key_eqb k' k).
  - f_equal. apply IH; [congruence | exact Hres].
Qed.

(** Row by row: [transform center] subtracts from an entry the mean of the
    group of its row. *)
Lemma transform_center_lookup (ks : list (option key)) (vs : list cell)
    (i : nat) (k : key) (v : cell) :
  length vs = length ks ->
  ks !! i = Some (Some k) ->
  vs !! i = Some v ->
  transform center ks vs !! i
  = Some (match v, series_mean (group_rows k ks vs) with
          | Some a, Some m => Some (a - m)
          | _, _ => None
          end).
Proof.
  intros Hl Hk Hv. unfold transform.
  rewrite (scatter_map
             (fun k0 v0 => match v0, series_mean (group_rows k0 ks vs) with
                           | Some a, Some m => Some (a - m)
                           | _, _ => None
                           end) ks vs); [| exact Hl | reflexivity].
  rewrite lookup_zip_with, Hk. simpl. now rewrite Hv.
Qed.

(** ** Frames *)

Lemma getitem_In (df : DataFrame) (l : string) (c : coldata) :
  getitem df l = Some c -> In (l, c) df.
Proof.
  induction df as [|[l0 c0] df IH]; simpl; [discriminate|].
  destruct (String.eqb l0 l) eqn:E.
  - apply String.eqb_eq in E. intros [= <-]. left. now subst.
  - intros H. right. now apply IH.
Qed.

Lemma getitem_None (df : DataFrame) (l : string) :
  getitem df l = None <-> ~ In l (columns df).
Proof.
  induction df as [|[l0 c0] df IH]; simpl.
  - tauto.
  - destruct (String.eqb l0 l) eqn:E.
    + apply String.eqb_eq in E. split; [discriminate | tauto].
    + apply String.eqb_neq in E. rewrite IH. tauto.
Qed.

Lemma In_getitem (df : DataFrame) (l : string) (c : coldata) :
  NoDup (columns df) -> In (l, c) df -> getitem df l = Some c.
Proof.
  induction df as [|[l0 c0] df IH]; simpl; [tauto|].
  intros Hnd [E|Hin].
  - injection E as -> ->. now rewrite String.eqb_refl.
  - apply NoDup_cons in Hnd as [Hn Hnd].
    destruct (String.eqb l0 l) eqn:E.
    + apply String.eqb_eq in E. subst l0. exfalso. apply Hn.
      apply list_elem_of_In. change l with (fst (l, c)).
      now apply in_map.
    + now apply IH.
Qed.

Lemma getitem_setitem_eq (df : DataFrame) (l : string) (c : coldata) :
  getitem (setitem df l c) l = Some c.
Proof.
  induction df as [|[l0 c0] df IH]; simpl.
  - now rewrite String.eqb_refl.
  - destruct (String.eqb l0 l) eqn:E; simpl; rewrite E; auto.
Qed.

Lemma getitem_setitem_ne (df : DataFrame) (l l' : string) (c : coldata) :
  l <> l' -> getitem (setitem df l c) l' = getitem df l'.
Proof.
  intros Hne. induction df as [|[l0 c0] df IH]; simpl.
  - apply String.eqb_neq in Hne. now rewrite Hne.
  - destruct (String.eqb l0 l) eqn:E; simpl.
    + apply String.eqb_eq in E. subst l0.
      apply String.eqb_neq in Hne. now rewrite Hne.
    + now rewrite IH.
Qed.

Lemma columns_setitem (df : DataFrame) (l : string) (c : coldata) :
  In l (columns df) -> columns (setitem df l c) = columns df.
Proof.
  induction df as [|[l0 c0] df IH]; simpl; [tauto|].
  intros H. destruct (String.eqb l0 l) eqn:E; simpl; [reflexivity|].
  f_equal. apply IH. destruct H as [H|H]; [|exact H].
  apply String.eqb_neq in E. congruence.
Qed.

(** Assigning columns computed from their labels: a look-up finds the new
    column for an assigned label and the old one otherwise. *)
Lemma getitem_setitems (F : string -> coldata) (labels : list string) :
  forall df l,
    getitem (setitems df (map (fun x => (x, F x)) labels)) l
    = if in_dec string_dec l labels then Some (F l) else getitem df l.
Proof.
  induction labels as [|x labels IH]; intros df l; simpl setitems.
  - reflexivity.
  - rewrite IH.
    destruct (in_dec string_dec l labels) as [Hin|Hnin];
      destruct (in_dec string_dec l (x :: labels)) as [Hin'|Hnin'];
      simpl in *; try tauto.
    + destruct Hin' as [->|]; [|tauto]. apply getitem_setitem_eq.
    + apply getitem_setitem_ne. tauto.
Qed.

Lemma columns_setitems (F : string -> coldata) (labels : list string) :
  forall df,
    (forall l, In l labels -> In l (columns df)) ->
    columns (setitems df (map (fun x => (x, F x)) labels)) = columns df.
Proof.
  induction labels as [|x labels IH]; intros df Hin; simpl setitems.
  - reflexivity.
  - rewrite IH.
    + apply columns_setitem. apply Hin. now left.
    + intros l Hl. rewrite columns_setitem; apply Hin; simpl; tauto.
Qed.

Lemma in_feature_cols_of (df : DataFrame) (l : string) :
  In l (feature_cols_of df) <-> In l (columns df) /\ is_feature l = true.
Proof. unfold feature_cols_of. apply filter_In. Qed.

(** [mapR] succeeds exactly when the function succeeds on every element. *)
Lemma mapR_Ok {A B} (f : A -> result B) (g : A -> B) (l : list A) :
  (forall a, In a l -> f a = Ok (g a)) -> mapR f l = Ok (map g l).
Proof.
  induction l as [|a l IH]; intros H; simpl; [reflexivity|].
  rewrite (H a) by now left. rewrite IH; [reflexivity|].
  intros b Hb. apply H. now right.
Qed.

Lemma mapR_Ok_inv {A B} (f : A -> result B) (l : list A) (bs : list B) :
  mapR f l = Ok bs -> Forall2 (fun a b => f a = Ok b) l bs.
Proof.
  revert bs. induction l as [|a l IH]; intros bs; simpl.
  - intros [= <-]. constructor.
  - destruct (f a) as [b|e] eqn:E; [|discriminate].
    destruct (mapR f l) as [bs'|e]; [|discriminate].
    intros [= <-]. constructor; auto.
Qed.

(** ** Well-mean subtraction *)

Lemma groupby_transform_center_inv (df : DataFrame) (labels : list string)
    (new : list (string * coldata)) :
  groupby_transform df "Metadata_Well" labels center = Ok new ->
  exists kc,
    getitem df "Metadata_Well" = Some kc
    /\ (forall l, In l labels -> exists vs, getitem df l = Some (Numeric vs))
    /\ new = map (fun l => (l, centered_at kc df l)) labels.
Proof.
  unfold groupby_transform.
  destruct (getitem df "Metadata_Well") as [kc|]; [|discriminate].
  intros H. exists kc. split; [reflexivity|].
  assert (mapR (fun l => match getitem df l with
                         | Some (Numeric vs) =>
                             Ok (l, Numeric (transform center (keys_of kc) vs))
                         | Some (Text _) => Raise (TypeError l)
                         | None => Raise (KeyError l)
                         end) labels = Ok new) as H'.
  { destruct labels; [discriminate | exact H]. }
  clear H. rename H' into H.
  apply mapR_Ok_inv in H.
  induction H as [|l b labels new Hl _ [IH1 IH2]]; simpl.
  - split; [tauto | reflexivity].
  - unfold centered_at at 1.
    destruct (getitem df l) as [[vs|ts]|] eqn:E; try discriminate.
    injection Hl as <-. split.
    + intros l' [<-|Hin]; [eauto | auto].
    + simpl. now f_equal.
Qed.

Lemma groupby_transform_nonempty (df : DataFrame) (by_ : string)
    (labels : list string) (f : list cell -> list cell)
    (new : list (string * coldata)) :
  groupby_transform df by_ labels f = Ok new -> labels <> [].
Proof.
  unfold groupby_transform. destruct (getitem df by_); [|discriminate].
  destruct labels; [discriminate | congruence].
Qed.

Lemma groupby_transform_center_Ok (df : DataFrame) (labels : list string)
    (kc : coldata) :
  labels <> [] ->
  getitem df "Metadata_Well" = Some kc ->
  (forall l, In l labels -> exists vs, getitem df l = Some (Numeric vs)) ->
  groupby_transform df "Metadata_Well" labels center
  = Ok (map (fun l => (l, centered_at kc df l)) labels).
Proof.
  intros Hne Hk Hnum. unfold groupby_transform. rewrite Hk.
  destruct labels as [|l0 labels0] eqn:El; [congruence|]. rewrite <- El in *.
  apply mapR_Ok. intros l Hl. destruct (Hnum l Hl) as [vs E].
  unfold centered_at. now rewrite E.
Qed.

(** What a returning call of [subtract_well_mean] has done. *)
Lemma subtract_well_mean_inv (r r' : ref) (h h' : gmap ref DataFrame) :
  subtract_well_mean r h = (Ok r', h') ->
  exists df kc,
    h !! r = Some df
    /\ getitem df "Metadata_Well" = Some kc
    /\ (forall l, In l (feature_cols_of df) ->
                  exists vs, getitem df l = Some (Numeric vs))
    /\ r' = r
    /\ h' = <[r := setitems df (map (fun l => (l, centered_at kc df l))
                                     (feature_cols_of df))]> h.
Proof.
  unfold subtract_well_mean, deref, assign. simpl.
  destruct (h !! r) as [df|] eqn:Hr; [|discriminate].
  destruct (groupby_transform df "Metadata_Well" (feature_cols_of df) center)
    as [new|e] eqn:Hg; [|discriminate].
  intros [= <- <-].
  apply groupby_transform_center_inv in Hg as (kc & Hk & Hnum & ->).
  exists df, kc. auto.
Qed.

(** A returning call found a feature column. *)
Lemma subtract_well_mean_inv_features (r r' : ref) (h h' : gmap ref DataFrame)
    (df : DataFrame) :
  h !! r = Some df ->
  subtract_well_mean r h = (Ok r', h') ->
  feature_cols_of df <> [].
Proof.
  unfold subtract_well_mean, deref, assign. simpl. intros ->.
  destruct (groupby_transform df "Metadata_Well" (feature_cols_of df) center)
    as [new|e] eqn:Hg; [|discriminate].
  intros _. eapply groupby_transform_nonempty; eauto.
Qed.

(** A frame with a well column and features, all numeric, is accepted. *)
Lemma subtract_well_mean_returns (r : ref) (h : gmap ref DataFrame)
    (df : DataFrame) (kc : coldata) :
  h !! r = Some df ->
  getitem df "Metadata_Well" = Some kc ->
  feature_cols_of df <> [] ->
  (forall l vs, is_feature l = true -> In (l, vs) df -> exists xs, vs = Numeric xs) ->
  exists df', subtract_well_mean r h = (Ok r, <[r := df']> h).
Proof.
  intros Hr Hk Hne Hnum.
  unfold subtract_well_mean, deref, assign. simpl. rewrite Hr.
  rewrite (groupby_transform_center_Ok df _ kc Hne Hk).
  - eauto.
  - intros l Hl. apply in_feature_cols_of in Hl as [Hin Hf].
    destruct (getitem df l) as [c|] eqn:E.
    + destruct (Hnum l c Hf (getitem_In _ _ _ E)) as [xs ->]. eauto.
    + now apply getitem_None in E.
Qed.

(** The columns of the frame a returning call leaves behind. *)
Lemma subtract_well_mean_getitem (df : DataFrame) (kc : coldata) (l : string) :
  getitem (setitems df (map (fun l => (l, centered_at kc df l))
                            (feature_cols_of df))) l
  = if is_feature l then option_map (centered_col kc) (getitem df l)
    else getitem df l.
Proof.
  rewrite getitem_setitems.
  destruct (in_dec string_dec l (feature_cols_of df)) as [Hin|Hnin].
  - apply in_feature_cols_of in Hin as [Hin Hf]. rewrite Hf.
    unfold centered_at. destruct (getitem df l) eqn:E; [reflexivity|].
    now apply getitem_None in E.
  - destruct (is_feature l) eqn:Hf; [|reflexivity].
    destruct (getitem df l) eqn:E; [|reflexivity].
    exfalso. apply Hnin. apply in_feature_cols_of. split; [|exact Hf].
    apply getitem_In in E. change l with (fst (l, c)). now apply in_map.
Qed.

Lemma distinct_NoDup (l : list string) : distinct l = true -> NoDup l.
Proof.
  induction l as [|x l IH]; simpl; intros H; [constructor|].
  apply andb_prop in H as [Hx Hl]. constructor; [|auto].
  rewrite list_elem_of_In. intros Hin.
  apply negb_true_iff in Hx.
  assert (existsb (String.eqb x) l = true) as E; [|congruence].
  apply existsb_exists. exists x. split; [exact Hin | apply String.eqb_refl].
Qed.

Lemma same_rows_spec (df : DataFrame) (l l' : string) (c c' : coldata) :
  same_rows df = true -> In (l, c) df -> In (l', c') df -> nrows c = nrows c'.
Proof.
  destruct df as [|[l0 c0] df]; simpl; [tauto|].
  intros H. rewrite forallb_forall in H.
  assert (forall l1 c1, (l0, c0) = (l1, c1) \/ In (l1, c1) df ->
                        nrows c1 = nrows c0) as Hall.
  { intros l1 c1 [[= <- <-]|Hin]; [reflexivity|].
    apply Nat.eqb_eq. exact (H _ Hin). }
  intros H1 H2. rewrite (Hall _ _ H1), (Hall _ _ H2). reflexivity.
Qed.

Lemma wf_frame_spec (df : DataFrame) :
  wf_frame df = true ->
  NoDup (columns df)
  /\ forall l l' c c', getitem df l = Some c -> getitem df l' = Some c' ->
                       nrows c = nrows c'.
Proof.
  unfold wf_frame. intros H. apply andb_prop in H as [Hd Hs]. split.
  - now apply distinct_NoDup.
  - intros l l' c c' H1 H2.
    eapply same_rows_spec; eauto using getitem_In.
Qed.

Lemma length_keys_of (c : coldata) : length (keys_of c) = nrows c.
Proof. destruct c; simpl; apply length_map. Qed.

Lemma length_transform (f : list cell -> list cell) (ks : list (option key))
    (vs : list cell) : length (transform f ks vs) = length ks.
Proof. apply length_scatter. Qed.

(** The rows of a group of one row. *)
Lemma group_rows_single (k : key) (ks : list (option key)) :
  forall (vs : list cell) (i : nat) (v : cell),
    length vs = length ks ->
    group_size k ks = 1%nat ->
    ks !! i = Some (Some k) ->
    vs !! i = Some v ->
    group_rows k ks vs = [v].
Proof.
  assert (forall vs, length vs = length ks -> group_size k ks = O ->
                     group_rows k ks vs = []) as Hzero.
  { intros vs Hl Hz. apply length_zero_iff_nil.
    now rewrite length_group_rows. }
  revert Hzero.
  induction ks as [|[k'|] ks IH]; intros Hzero [|v0 vs] i v Hl Hs Hk Hv;
    simpl in *; try discriminate.
  - assert (forall vs0, length vs0 = length ks -> group_size k ks = O ->
                        group_rows k ks vs0 = []) as Hz'.
    { intros vs0 Hl0 Hz0. apply length_zero_iff_nil.
      now rewrite length_group_rows. }
    destruct (key_eqb k' k) eqn:E.
    + injection Hs as Hs. destruct i as [|i].
      * injection Hv as ->. f_equal. apply Hz'; [congruence | exact Hs].
      * exfalso. simpl in Hk.
        assert (group_size k ks <> O) as Hne; [|congruence].
        clear - Hk. revert i Hk.
        induction ks as [|[k0|] ks IH]; intros i Hk; simpl.
        -- now rewrite lookup_nil in Hk.
        -- destruct i as [|i]; simpl in Hk.
           ++ injection Hk as ->. now rewrite key_eqb_refl.
           ++ destruct (key_eqb k0 k); [discriminate | eauto].
        -- destruct i as [|i]; simpl in Hk; [discriminate | eauto].
    + destruct i as [|i]; simpl in Hk, Hv.
      * injection Hk as ->. now rewrite key_eqb_refl in E.
      * eapply IH; eauto.
  - destruct i as [|i]; simpl in Hk, Hv; [discriminate|].
    eapply IH; eauto.
    intros vs0 Hl0 Hz0. apply length_zero_iff_nil.
    now rewrite length_group_rows.
Qed.

(** A group that occurs among the keys of a column without missing entries
    has a present entry. *)
Lemma dropna_group_rows_nonempty (k : key) (ks : list (option key)) :
  forall vs : list cell,
    length vs = length ks ->
    forallb present vs = true ->
    In (Some k) ks ->
    dropna (group_rows k ks vs) <> [].
Proof.
  induction ks as [|[k'|] ks IH]; intros [|v vs] Hl Hp Hin; simpl in *;
    try discriminate; try tauto.
  - apply andb_prop in Hp as [Hv Hp].
    destruct (key_eqb k' k) eqn:E.
    + destruct v; [simpl; discriminate | discriminate].
    + destruct Hin as [[= ->]|Hin]; [now rewrite key_eqb_refl in E|].
      apply IH; auto.
  - apply andb_prop in Hp as [Hv Hp].
    destruct Hin as [|Hin]; [discriminate|]. apply IH; auto.
Qed.

(** C4. On the frame with [Metadata_Well = [A1, A1, A2]] and
    [Feature_X = [1, 3, 5]], [subtract_well_mean] returns the frame it was
    given, now with [Feature_X = [-1, 1, 0]]. *)
Theorem subtract_well_mean_example :
  subtract_well_mean 1%positive {[1%positive := frame_example]}
  = (Ok 1%positive, {[1%positive := frame_example_centered]}).
Proof. vm_compute. reflexivity. Qed.

(** C5, amended. In the frame a call of [subtract_well_mean] leaves, a row
    that is alone in its well holds, in every feature column, exactly zero
    where its value was present (a finite number), and a missing entry where
    its value was missing. *)
Theorem subtract_well_mean_single_row
    (h h' : gmap ref DataFrame) (r r' : ref) (df df' : DataFrame)
    (l : string) (vs vs' : list cell) (kc : coldata)
    (k : key) (i : nat) (v : cell) :
  h !! r = Some df ->
  wf_frame df = true ->
  subtract_well_mean r h = (Ok r', h') ->
  h' !! r' = Some df' ->
  is_feature l = true ->
  getitem df l = Some (Numeric vs) ->
  getitem df' l = Some (Numeric vs') ->
  getitem df "Metadata_Well" = Some kc ->
  group_size k (keys_of kc) = 1%nat ->
  keys_of kc !! i = Some (Some k) ->
  vs !! i = Some v ->
  vs' !! i = Some (option_map (fun _ => 0) v).
Proof.
  intros Hr Hwf Hrun Hr' Hf Hl Hl' Hk Hsz Hki Hvi.
  apply subtract_well_mean_inv in Hrun as (df0 & kc0 & Hr0 & Hk0 & _ & -> & ->).
  rewrite Hr in Hr0. injection Hr0 as <-.
  rewrite Hk in Hk0. injection Hk0 as <-.
  rewrite lookup_insert_eq in Hr'. injection Hr' as <-.
  rewrite subtract_well_mean_getitem, Hf, Hl in Hl'. injection Hl' as <-.
  apply wf_frame_spec in Hwf as [_ Hrows].
  assert (length vs = length (keys_of kc)) as Hlen.
  { rewrite length_keys_of. exact (Hrows _ _ _ _ Hl Hk). }
  rewrite (transform_center_lookup _ _ i k v Hlen Hki Hvi).
  rewrite (group_rows_single k _ vs i v Hlen Hsz Hki Hvi).
  destruct v as [a|]; [|reflexivity].
  unfold series_mean. simpl. do 2 f_equal. field. discriminate.
Qed.

(** C5, as stated, fails: the only row of well [A1] has a missing feature
    value, and it is still missing, not zero, after the call. *)
Lemma subtract_well_mean_single_row_missing :
  exists (h' : gmap ref DataFrame) (df' : DataFrame) (vs' : list cell),
    subtract_well_mean 1%positive {[1%positive := frame_single_missing]}
    = (Ok 1%positive, h')
    /\ h' !! 1%positive = Some df'
    /\ getitem df' "Feature_X" = Some (Numeric vs')
    /\ is_feature "Feature_X" = true
    /\ group_size (KStr "A1") [Some (KStr "A1")] = 1%nat
    /\ vs' !! O = Some None
    /\ vs' !! O <> Some (Some 0).
Proof.
  exists {[1%positive := frame_single_missing]}, frame_single_missing, [None].
  repeat split; try reflexivity. discriminate.
Qed.

(** C6. For a frame without missing values, after [subtract_well_mean] the
    mean of every feature column over every well is exactly zero. *)
Theorem subtract_well_mean_group_mean_zero
    (h h' : gmap ref DataFrame) (r r' : ref) (df df' : DataFrame)
    (l : string) (vs' : list cell) (kc : coldata) (k : key) :
  h !! r = Some df ->
  wf_frame df = true ->
  no_missing df = true ->
  subtract_well_mean r h = (Ok r', h') ->
  h' !! r' = Some df' ->
  is_feature l = true ->
  getitem df' l = Some (Numeric vs') ->
  getitem df' "Metadata_Well" = Some kc ->
  In (Some k) (keys_of kc) ->
  series_mean (group_rows k (keys_of kc) vs') = Some 0.
Proof.
  intros Hr Hwf Hnm Hrun Hr' Hf Hl' Hk' Hin.
  apply subtract_well_mean_inv in Hrun as (df0 & kc0 & Hr0 & Hk0 & _ & -> & ->).
  rewrite Hr in Hr0. injection Hr0 as <-.
  rewrite lookup_insert_eq in Hr'. injection Hr' as <-.
  rewrite subtract_well_mean_getitem in Hk'. simpl in Hk'.
  rewrite Hk' in Hk0. injection Hk0 as <-.
  rewrite subtract_well_mean_getitem, Hf in Hl'.
  destruct (getitem df l) as [[vs|ts]|] eqn:Hl; try discriminate.
  injection Hl' as <-.
  apply wf_frame_spec in Hwf as [_ Hrows].
  assert (length vs = length (keys_of kc)) as Hlen.
  { rewrite length_keys_of. exact (Hrows _ _ _ _ Hl Hk'). }
  rewrite group_rows_transform; [| apply length_center | exact Hlen].
  apply series_mean_center.
  apply dropna_group_rows_nonempty; [exact Hlen | | exact Hin].
  unfold no_missing in Hnm. rewrite forallb_forall in Hnm.
  exact (Hnm _ (getitem_In _ _ _ Hl)).
Qed.

(** C10. A returning call of [subtract_well_mean] returns the reference it
    was given and changes only the frame behind it, in place; that frame
    keeps its labels in order, its [Metadata_] columns and the length of
    every column, and row by row a feature entry becomes the entry minus the
    mean of its well. *)
Theorem subtract_well_mean_frame
    (h h' : gmap ref DataFrame) (r r' : ref) (df : DataFrame) :
  h !! r = Some df ->
  wf_frame df = true ->
  subtract_well_mean r h = (Ok r', h') ->
  well_mean_effect h r df r' h'.
Proof.
  intros Hr Hwf Hrun. unfold well_mean_effect.
  apply subtract_well_mean_inv in Hrun as (df0 & kc0 & Hr0 & Hk0 & Hnum & -> & ->).
  rewrite Hr in Hr0. injection Hr0 as <-.
  apply wf_frame_spec in Hwf as [_ Hrows].
  split; [reflexivity|]. eexists. split; [reflexivity|].
  split; [|split; [|split]].
  - apply columns_setitems. intros l Hl.
    now apply in_feature_cols_of in Hl as [Hl _].
  - intros l Hf. now rewrite subtract_well_mean_getitem, Hf.
  - intros l c c' Hl Hl'. rewrite subtract_well_mean_getitem, Hl in Hl'.
    destruct (is_feature l); [|congruence].
    injection Hl' as <-. destruct c as [vs|ts]; simpl; [|reflexivity].
    rewrite length_transform, length_keys_of.
    exact (Hrows _ _ _ _ Hk0 Hl).
  - intros l vs vs' kc i k v Hf Hl Hl' Hk Hki Hvi.
    rewrite Hk in Hk0. injection Hk0 as <-.
    rewrite subtract_well_mean_getitem, Hf, Hl in Hl'. injection Hl' as <-.
    apply transform_center_lookup; auto.
    rewrite length_keys_of. exact (Hrows _ _ _ _ Hl Hk).
Qed.

Lemma subtract_well_mean_single_row_witness :
  ([Some (Num.of_Z (-1)); Some (Num.of_Z 1); Some (Num.of_Z 0)] : list cell)
    !! 2%nat = Some (option_map (fun _ => 0) (Some (Num.of_Z 5))).
Proof.
  apply (subtract_well_mean_single_row
           {[1%positive := frame_example]}
           {[1%positive := frame_example_centered]}
           1%positive 1%positive frame_example frame_example_centered
           "Feature_X"
           [Some (Num.of_Z 1); Some (Num.of_Z 3); Some (Num.of_Z 5)]
           [Some (Num.of_Z (-1)); Some (Num.of_Z 1); Some (Num.of_Z 0)]
           (Text [Some "A1"; Some "A1"; Some "A2"]%string)
           (KStr "A2") 2%nat (Some (Num.of_Z 5)));
    reflexivity.
Defined.

Lemma subtract_well_mean_group_mean_zero_witness :
  series_mean
    (group_rows (KStr "A1")
       (keys_of (Text [Some "A1"; Some "A1"; Some "A2"]%string))
       [Some (Num.of_Z (-1)); Some (Num.of_Z 1); Some (Num.of_Z 0)])
  = Some 0.
Proof.
  apply (subtract_well_mean_group_mean_zero
           {[1%positive := frame_example]}
           {[1%positive := frame_example_centered]}
           1%positive 1%positive frame_example frame_example_centered
           "Feature_X");
    try reflexivity.
  simpl. tauto.
Defined.

Lemma subtract_well_mean_frame_witness :
  well_mean_effect {[1%positive := frame_example]} 1%positive frame_example
    1%positive {[1%positive := frame_example_centered]}.
Proof.
  apply subtract_well_mean_frame; reflexivity.
Defined.

(** ** MAD robustization *)

Lemma lookup_map {A B} (f : A -> B) (l : list A) (i : nat) :
  map f l !! i = option_map f (l !! i).
Proof.
  revert i. induction l as [|a l IH]; intros [|i]; simpl; auto.
Qed.

Lemma length_insert_sorted (a : Qc) (l : list Qc) :
  length (Num.insert a l) = S (length l).
Proof.
  induction l as [|b l IH]; simpl; [reflexivity|].
  destruct (Num.leb a b); simpl; congruence.
Qed.

Lemma length_sort (l : list Qc) : length (Num.sort l) = length l.
Proof.
  induction l as [|a l IH]; simpl; [reflexivity|].
  now rewrite length_insert_sorted, IH.
Qed.

Lemma median_nonempty (l : list Qc) :
  l <> [] -> exists m, Num.median l = Some m.
Proof.
  intros Hl. unfold Num.median. rewrite length_sort.
  destruct l as [|a l]; [congruence|]. simpl length.
  destruct (Nat.even (S (length l))); eauto.
Qed.

Lemma median_empty : Num.median [] = None.
Proof. reflexivity. Qed.

Lemma dropna_lookup (col : list cell) (i : nat) (v : Qc) :
  col !! i = Some (Some v) -> dropna col <> [].
Proof.
  revert i. induction col as [|[a|] col IH]; intros [|i] H; simpl in *;
    try discriminate; eauto.
Qed.

Lemma dropna_map_Some (l : list Qc) : dropna (map Some l) = l.
Proof. induction l; simpl; congruence. Qed.

Lemma c14826_neq_0 : c14826 <> 0.
Proof. intros H. apply (f_equal this) in H. discriminate H. Qed.

(** Dividing by the scale [1 / 1.4826] is multiplying by [1.4826]. *)
Lemma div_scale (m : Qc) : m / (1 / c14826) = m * c14826.
Proof. field. split; [apply c14826_neq_0 | discriminate]. Qed.

(** The MAD of a column with a present entry: [1.4826] times the median of
    the absolute deviations from the median. *)
Lemma median_abs_deviation_present (col : list cell) :
  dropna col <> [] ->
  exists med mad,
    series_median col = Some med
    /\ Num.median (map (fun x => Num.abs (x - med)) (dropna col)) = Some mad
    /\ median_abs_deviation col (1 / c14826) = Some (mad * c14826).
Proof.
  intros Hd. unfold series_median, median_abs_deviation.
  destruct (median_nonempty _ Hd) as [med ->].
  destruct (median_nonempty (map (fun x => Num.abs (x - med)) (dropna col)))
    as [mad Hmad].
  { destruct (dropna col); [congruence | discriminate]. }
  exists med, mad. rewrite Hmad, div_scale. auto.
Qed.

Lemma fdiv_finite (a b : Qc) :
  b <> 0 -> fdiv (Some a) (Some b) = Fin (a / b).
Proof.
  intros Hb. unfold fdiv. apply Num_eqb_neq in Hb. now rewrite Hb.
Qed.

(** The entry [mad_robustize_col] computes at a present entry. *)
Lemma mad_robustize_col_present (col : list cell) (epsilon : Qc)
    (i : nat) (v : Qc) :
  col !! i = Some (Some v) ->
  exists med mad,
    series_median col = Some med
    /\ Num.median (map (fun x => Num.abs (x - med)) (dropna col)) = Some mad
    /\ median_abs_deviation col (1 / c14826) = Some (mad * c14826)
    /\ mad_robustize_col col epsilon !! i
       = Some (fdiv (Some (v - med)) (Some (mad * c14826 + epsilon))).
Proof.
  intros Hi.
  destruct (median_abs_deviation_present col (dropna_lookup _ _ _ Hi))
    as (med & mad & Hmed & Hdev & Hmad).
  exists med, mad. repeat (split; [assumption|]).
  unfold mad_robustize_col, series_div_scalar, series_sub_scalar.
  rewrite Hmad, Hmed. rewrite !lookup_map, Hi. reflexivity.
Qed.

(** C3. At every present entry, [mad_robustize_col] returns
    (value - median) / (mad + epsilon), where median is the median of the
    present entries and mad is [1.4826] times the median of their absolute
    deviations from it; the quotient is finite when mad + epsilon is not
    zero. *)
Theorem mad_robustize_col_formula (col : list cell) (epsilon : Qc)
    (i : nat) (v : Qc) :
  col !! i = Some (Some v) ->
  exists med mad,
    series_median col = Some med
    /\ Num.median (map (fun x => Num.abs (x - med)) (dropna col)) = Some mad
    /\ mad_robustize_col col epsilon !! i
       = Some (fdiv (Some (v - med)) (Some (mad * c14826 + epsilon)))
    /\ (mad * c14826 + epsilon <> 0 ->
        mad_robustize_col col epsilon !! i
        = Some (Fin ((v - med) / (mad * c14826 + epsilon)))).
Proof.
  intros Hi.
  destruct (mad_robustize_col_present col epsilon i v Hi)
    as (med & mad & Hmed & Hdev & _ & E).
  exists med, mad. repeat (split; [assumption|]).
  intros Hne. now rewrite E, fdiv_finite.
Qed.

Lemma mad_robustize_col_formula_witness :
  exists med mad,
    series_median col_example = Some med
    /\ Num.median (map (fun x => Num.abs (x - med)) (dropna col_example))
       = Some mad
    /\ mad_robustize_col col_example 0 !! 3%nat
       = Some (fdiv (Some (Num.of_Z 4 - med)) (Some (mad * c14826 + 0)))
    /\ (mad * c14826 + 0 <> 0 ->
        mad_robustize_col col_example 0 !! 3%nat
        = Some (Fin ((Num.of_Z 4 - med) / (mad * c14826 + 0)))).
Proof.
  apply (mad_robustize_col_formula col_example 0 3%nat (Num.of_Z 4)).
  reflexivity.
Defined.

Lemma at_present_map (F : cell -> fval) (col : list cell) :
  at_present col (map F col) = map F (map Some (dropna col)).
Proof.
  induction col as [|[v|] col IH]; simpl; [reflexivity | | exact IH].
  now rewrite IH.
Qed.

(** C7. [mad_robustize_col] leaves a missing entry missing.  The missing
    entries take no part in the computation: the values at the other rows are
    those the function gives for the column without its missing entries, and
    each is (value - median) / (mad + epsilon) with the median and the MAD of
    the present entries alone - a finite number when mad + epsilon is not
    zero. *)
Theorem mad_robustize_col_missing (col : list cell) (epsilon : Qc) :
  (forall i, col !! i = Some None ->
             mad_robustize_col col epsilon !! i = Some NaN)
  /\ at_present col (mad_robustize_col col epsilon)
     = mad_robustize_col (map Some (dropna col)) epsilon
  /\ (forall i v,
         col !! i = Some (Some v) ->
         exists med mad,
           Num.median (dropna col) = Some med
           /\ Num.median (map (fun x => Num.abs (x - med)) (dropna col))
              = Some mad
           /\ mad_robustize_col col epsilon !! i
              = Some (fdiv (Some (v - med)) (Some (mad * c14826 + epsilon)))
           /\ (mad * c14826 + epsilon <> 0 ->
               mad_robustize_col col epsilon !! i
               = Some (Fin ((v - med) / (mad * c14826 + epsilon))))).
Proof.
  split; [|split].
  - intros i Hi.
    unfold mad_robustize_col, series_div_scalar, series_sub_scalar.
    rewrite !lookup_map, Hi. reflexivity.
  - unfold mad_robustize_col, series_median, median_abs_deviation.
    rewrite dropna_map_Some.
    unfold series_div_scalar, series_sub_scalar. rewrite !map_map.
    rewrite at_present_map, map_map. reflexivity.
  - intros i v Hi.
    destruct (mad_robustize_col_present col epsilon i v Hi)
      as (med & mad & Hmed & Hdev & _ & E).
    exists med, mad. repeat (split; [assumption|]).
    intros Hne. now rewrite E, fdiv_finite.
Qed.

Lemma mad_robustize_col_missing_witness :
  mad_robustize_col col_example 0 !! 1%nat = Some NaN.
Proof.
  apply (mad_robustize_col_missing col_example 0). reflexivity.
Defined.

(** ** The loader *)

Module LoaderFacts.
Import Loader LoaderSpec.

Lemma append_assoc (a b c : string) :
  ((a ++ b) ++ c = a ++ (b ++ c))%string.
Proof.
  induction a as [|x a IH]; [reflexivity|].
  change (String x ((a ++ b) ++ c) = String x (a ++ (b ++ c)))%string.
  congruence.
Qed.

Lemma append_empty_r (a : string) : (a ++ "" = a)%string.
Proof.
  induction a as [|x a IH]; [reflexivity|].
  change (String x (a ++ "") = String x a)%string. congruence.
Qed.

(** The path [load] builds is the profiles path, whatever the component. *)
Lemma dataset_source_profiles_path (dataset source : string)
    (batch plate : option string) :
  bad_plate batch plate = false ->
  dataset_source dataset source batch plate
  = profiles_path dataset source batch plate.
Proof.
  unfold dataset_source, profiles_path.
  destruct batch as [b|], plate as [p|]; simpl; try discriminate; intros _.
  - now rewrite !append_assoc.
  - now rewrite !append_assoc, append_empty_r.
  - now rewrite !append_empty_r.
Qed.

Section load.

Variable s3 : string -> list string -> result remote.

(** C8. When a precondition is violated - [output] given and not a string
    ending with [.parquet], [columns] given and not a list, a component other
    than [profiles] and [load_data_csv], or a plate without a batch - [load]
    raises an assertion error with one of its messages, and up to then it has
    only logged: nothing was asked of the object store, read or written. *)
Theorem load_fails_fast (dataset source component : string)
    (batch plate : option string) (columns output : pyval) :
  precondition_violated component batch plate columns output = true ->
  exists msg,
    snd (load s3 dataset source component batch plate columns output)
    = Raise (AssertionError msg)
    /\ In msg assertion_messages
    /\ forallb is_log
         (fst (load s3 dataset source component batch plate columns output))
       = true.
Proof.
  unfold precondition_violated, bad_output, bad_columns, bad_component,
    bad_plate, load.
  intros H.
  destruct output as [|o|lo|]; [| destruct (endswith o ".parquet") eqn:Eo | |];
    destruct columns as [|sc|lc|];
    destruct (str_in component ["profiles"; "load_data_csv"]%string) eqn:Ec;
    destruct batch as [b|], plate as [p|];
    simpl in H; try discriminate H; simpl; rewrite ?Eo, ?Ec; simpl;
    rewrite ?Ec; simpl;
    eexists; (split; [reflexivity|]); (split; [simpl; tauto | reflexivity]).
Qed.

(** C9. A call of [load] that passes the checks asks the object store for
    exactly one dataset, at the profiles path of the dataset and source,
    extended by the batch and the plate when given; the component does not
    occur in the path, only as a field of the partitioning. *)
Theorem load_queries_profiles (dataset source component : string)
    (batch plate : option string) (columns output : pyval) :
  precondition_violated component batch plate columns output = false ->
  queries (fst (load s3 dataset source component batch plate columns output))
  = [(profiles_path dataset source batch plate,
      ["dataset"; "source"; "workspace"; component; "batch"; "plate"]%string)].
Proof.
  unfold precondition_violated. intros H.
  apply orb_false_elim in H as [H Hp].
  apply orb_false_elim in H as [H Hc].
  apply orb_false_elim in H as [Ho Hl].
  unfold load. rewrite (dataset_source_profiles_path _ _ _ _ Hp).
  remember (profiles_path dataset source batch plate) as pth eqn:Epth.
  clear Epth.
  unfold bad_component in Hc. apply negb_false_iff in Hc. rewrite Hc.
  remember ["dataset"; "source"; "workspace"; component; "batch"; "plate"]%string
    as part eqn:Epart.
  destruct output as [|o|lo|]; simpl in Ho; try discriminate Ho;
    [| apply negb_false_iff in Ho; rewrite Ho ];
    (destruct columns as [|sc|lc|]; simpl in Hl; try discriminate Hl);
    (destruct batch as [b|], plate as [p|]; simpl in Hp; try discriminate Hp);
    cbn [bind T_monad ret assert emit lift fst snd app queries];
    match goal with
    | |- context [s3 pth part] =>
        destruct (s3 pth part) as [found|e]; cbn; [|reflexivity];
        match goal with
        | |- context [to_table found ?c] =>
            destruct (to_table found c) as [df|e]; cbn; reflexivity
        end
    end.
Qed.

End load.

Lemma load_fails_fast_witness :
  exists msg,
    snd (load store_example "cpg0016-jump" "source_4" "images"
           None None PyNone PyNone)
    = Raise (AssertionError msg)
    /\ In msg assertion_messages
    /\ forallb is_log
         (fst (load store_example "cpg0016-jump" "source_4" "images"
                 None None PyNone PyNone))
       = true.
Proof.
  apply (load_fails_fast store_example "cpg0016-jump" "source_4" "images"
           None None PyNone PyNone).
  reflexivity.
Defined.

Lemma load_queries_profiles_witness :
  queries (fst (load store_example "cpg0016-jump" "source_4" "load_data_csv"
                  (Some "2021_06_14_Batch6"%string) (Some "BR00121429"%string)
                  (PyList ["Metadata_Well"%string])
                  (PyStr "test.parquet")))
  = [(profiles_path "cpg0016-jump" "source_4"
        (Some "2021_06_14_Batch6"%string) (Some "BR00121429"%string),
      ["dataset"; "source"; "workspace"; "load_data_csv"; "batch"; "plate"]%string)].
Proof.
  apply (load_queries_profiles store_example). reflexivity.
Defined.

End LoaderFacts.

(** ** Least squares *)

Lemma square_nonneg (a : Qc) : 0 <= a * a.
Proof.
  destruct (Qclt_le_dec a 0) as [Hneg|Hpos].
  - replace (a * a) with ((- a) * (- a)) by ring.
    assert (0 <= - a) as H.
    { apply Qclt_le_weak, Qcopp_le_compat in Hneg.
      now replace (- 0) with 0 in Hneg by ring. }
    now apply Qcmult_nonneg_nonneg.
  - now apply Qcmult_nonneg_nonneg.
Qed.

Lemma one_plus_square_neq_0 (c : Qc) : 1 + c * c <> 0.
Proof.
  intros E. pose proof (Qcplus_pos_nonneg 1 (c * c) Qc_0_lt_1 (square_nonneg c)) as H.
  rewrite E in H. now apply Qclt_not_eq in H.
Qed.

Lemma sum_map_nonneg {A} (f : A -> Qc) (l : list A) :
  (forall a, 0 <= f a) -> 0 <= Num.sum (map f l).
Proof.
  intros Hf. induction l as [|a l IH]; simpl.
  - apply Qcle_refl.
  - now apply Qcplus_nonneg_nonneg.
Qed.

(** A sum of numbers that are not negative is zero only if all are zero. *)
Lemma sum_map_zero {A} (f : A -> Qc) (l : list A) :
  (forall a, 0 <= f a) -> Num.sum (map f l) = 0 ->
  forall a, In a l -> f a = 0.
Proof.
  intros Hf. induction l as [|b l IH]; simpl; [tauto|].
  intros Hs.
  pose proof (Hf b) as Hb. pose proof (sum_map_nonneg f l Hf) as Hl.
  assert (f b = 0) as Eb.
  { apply Qcle_antisym; [|exact Hb].
    replace (f b) with (0 - Num.sum (map f l)) by (rewrite <- Hs; ring).
    replace 0 with (0 - 0) at 2 by ring.
    unfold Qcminus. apply Qcplus_le_compat; [apply Qcle_refl|].
    now apply Qcopp_le_compat. }
  intros a [<-|Hin]; [exact Eb|].
  apply IH; [|exact Hin]. rewrite Eb in Hs. now rewrite Qcplus_0_l in Hs.
Qed.

Lemma sum_map_ext_in {A} (f g : A -> Qc) (l : list A) :
  (forall a, In a l -> f a = g a) -> Num.sum (map f l) = Num.sum (map g l).
Proof. intros H. f_equal. now apply map_ext_in. Qed.

Lemma sum_map_sub_scaled {A} (f g : A -> Qc) (c : Qc) (l : list A) :
  Num.sum (map (fun a => f a - c * g a) l)
  = Num.sum (map f l) - c * Num.sum (map g l).
Proof.
  induction l as [|a l IH]; simpl; [ring|]. rewrite IH. ring.
Qed.

Lemma sum_map_shift {A} (f : A -> Qc) (m : Qc) (l : list A) :
  Num.sum (map (fun a => f a - m) l)
  = Num.sum (map f l) - Num.count (map f l) * m.
Proof.
  induction l as [|a l IH]; simpl; [ring|]. rewrite IH. ring.
Qed.

Lemma count_map_neq_0 {A} (f : A -> Qc) (l : list A) :
  l <> [] -> Num.count (map f l) <> 0.
Proof.
  destruct l as [|a l]; [congruence|]. intros _. apply count_cons_neq_0.
Qed.

(** The deviations of the regressor, and of the response, from their means
    sum to zero. *)
Lemma sum_dev_x (ps : list (Qc * Qc)) :
  ps <> [] -> Num.sum (map (fun p => fst p - Ols.xbar ps) ps) = 0.
Proof.
  intros Hp. rewrite sum_map_shift. unfold Ols.xbar.
  pose proof (count_map_neq_0 fst ps Hp). now field.
Qed.

Lemma sum_dev_y (ps : list (Qc * Qc)) :
  ps <> [] -> Num.sum (map (fun p => snd p - Ols.ybar ps) ps) = 0.
Proof.
  intros Hp. rewrite sum_map_shift. unfold Ols.ybar.
  pose proof (count_map_neq_0 snd ps Hp). now field.
Qed.

(** A regressor without spread is constant on the rows of the fit. *)
Lemma sxx_zero (ps : list (Qc * Qc)) (p : Qc * Qc) :
  Ols.sxx ps = 0 -> In p ps -> fst p = Ols.xbar ps.
Proof.
  intros Hs Hin. unfold Ols.sxx in Hs.
  pose proof (sum_map_zero
                (fun q => (fst q - Ols.xbar ps) * (fst q - Ols.xbar ps)) ps
                (fun q => square_nonneg _) Hs p Hin) as H.
  simpl in H. apply Qcmult_integral in H.
  assert (fst p - Ols.xbar ps = 0) as E by tauto.
  replace (fst p) with (fst p - Ols.xbar ps + Ols.xbar ps) by ring.
  rewrite E. ring.
Qed.

(** The residual of a fitted row, in terms of the deviations from the
    means. *)
Lemma resid1_centered (ps : list (Qc * Qc)) (p : Qc * Qc) :
  In p ps ->
  Ols.resid1 (Ols.params ps) (fst p) (snd p)
  = (snd p - Ols.ybar ps) - fitted_slope ps * (fst p - Ols.xbar ps).
Proof.
  intros Hin. unfold Ols.resid1, Ols.params, fitted_slope.
  destruct (Num.eqb (Ols.sxx ps) 0) eqn:E; simpl.
  - apply Num_eqb_eq in E. rewrite (sxx_zero ps p E Hin).
    pose proof (one_plus_square_neq_0 (Ols.xbar ps)). now field.
  - apply Num_eqb_neq in E. now field.
Qed.

(** The normal equations: the residuals sum to zero, and so do their
    products with the deviations of the regressor. *)
Lemma resid_sum_zero (ps : list (Qc * Qc)) :
  ps <> [] ->
  Num.sum (map (fun p => Ols.resid1 (Ols.params ps) (fst p) (snd p)) ps) = 0.
Proof.
  intros Hp.
  rewrite (sum_map_ext_in _
             (fun p => (snd p - Ols.ybar ps)
                       - fitted_slope ps * (fst p - Ols.xbar ps)))
    by (intros; now apply resid1_centered).
  rewrite sum_map_sub_scaled, sum_dev_x, sum_dev_y by exact Hp. ring.
Qed.

Lemma resid_orthogonal (ps : list (Qc * Qc)) :
  ps <> [] ->
  Num.sum (map (fun p => (fst p - Ols.xbar ps)
                         * Ols.resid1 (Ols.params ps) (fst p) (snd p)) ps) = 0.
Proof.
  intros Hp.
  rewrite (sum_map_ext_in _
             (fun p => (fst p - Ols.xbar ps) * (snd p - Ols.ybar ps)
                       - fitted_slope ps
                         * ((fst p - Ols.xbar ps) * (fst p - Ols.xbar ps)))).
  2:{ intros p Hin. rewrite (resid1_centered ps p Hin). ring. }
  rewrite sum_map_sub_scaled. fold (Ols.sxy ps). fold (Ols.sxx ps).
  unfold fitted_slope. destruct (Num.eqb (Ols.sxx ps) 0) eqn:E.
  - apply Num_eqb_eq in E.
    assert (Ols.sxy ps = 0) as ->; [|ring].
    unfold Ols.sxy.
    rewrite (sum_map_ext_in _ (fun _ => 0)).
    + clear. induction ps; simpl; [reflexivity|]. rewrite IHps. ring.
    + intros p Hin. rewrite (sxx_zero ps p E Hin). ring.
  - apply Num_eqb_neq in E. now field.
Qed.

(** The residual column paired with the regressor: the rows of the fit, each
    with its residual. *)
Lemma complete_rows_resid (beta : Qc * Qc) (ys : list cell) :
  forall xs,
    complete_rows (Ols.resid_rows beta ys xs) xs
    = resid_pairs beta (complete_rows ys xs).
Proof.
  induction ys as [|[y|] ys IH]; intros [|[x|] xs]; simpl; try reflexivity;
    try apply IH.
  now rewrite IH.
Qed.

Lemma map_fst_resid_pairs (beta : Qc * Qc) (ps : list (Qc * Qc)) :
  map fst (resid_pairs beta ps) = map fst ps.
Proof. unfold resid_pairs. rewrite map_map. reflexivity. Qed.

Lemma map_snd_resid_pairs (beta : Qc * Qc) (ps : list (Qc * Qc)) :
  map snd (resid_pairs beta ps)
  = map (fun p => Ols.resid1 beta (fst p) (snd p)) ps.
Proof. unfold resid_pairs. rewrite map_map. reflexivity. Qed.

(** The residuals of a fit have no codeviation with the regressor. *)
Lemma sxy_resid_pairs (ps : list (Qc * Qc)) :
  ps <> [] -> Ols.sxy (resid_pairs (Ols.params ps) ps) = 0.
Proof.
  intros Hp. unfold Ols.sxy.
  assert (Ols.xbar (resid_pairs (Ols.params ps) ps) = Ols.xbar ps) as ->.
  { unfold Ols.xbar. now rewrite map_fst_resid_pairs. }
  assert (Ols.ybar (resid_pairs (Ols.params ps) ps) = 0) as ->.
  { unfold Ols.ybar. rewrite map_snd_resid_pairs, resid_sum_zero by exact Hp.
    pose proof (count_map_neq_0
                  (fun p => Ols.resid1 (Ols.params ps) (fst p) (snd p)) ps Hp).
    now field. }
  unfold resid_pairs. rewrite map_map. simpl.
  transitivity
    (Num.sum (map (fun p => (fst p - Ols.xbar ps)
                            * Ols.resid1 (Ols.params ps) (fst p) (snd p)) ps)).
  - apply sum_map_ext_in. intros p _. ring.
  - now apply resid_orthogonal.
Qed.

(** The residual column of an accepted fit has no codeviation with the
    regressor column. *)
Lemma codeviation_resid (label : string) (ys xs rs : list cell) :
  Ols.resid label ys xs = Ok rs -> codeviation rs xs = 0.
Proof.
  unfold Ols.resid, codeviation.
  destruct (complete_rows ys xs) as [|p ps] eqn:E; [discriminate|].
  intros [= <-]. rewrite complete_rows_resid, E.
  now apply sxy_resid_pairs.
Qed.

(** ** Cell-count regression *)

Lemma ols_resid_inv (d : DataFrame) (feature cc_col : string) (rs : list cell) :
  ols_resid d feature cc_col = Ok rs ->
  exists ys xs,
    getitem d feature = Some (Numeric ys)
    /\ getitem d cc_col = Some (Numeric xs)
    /\ Ols.resid feature ys xs = Ok rs.
Proof.
  unfold ols_resid.
  destruct (getitem d feature) as [[ys|ts]|];
    destruct (getitem d cc_col) as [[xs|ts']|]; try discriminate.
  eauto.
Qed.

(** The loop over features none of which is the cell-count column: every
    listed column ends as the residuals of its values on the cell-count
    column, and nothing else changes. *)
Lemma regress_loop_inv (r : ref) (cc_col : string) (xs : list cell)
    (feature_cols : list string) :
  forall (d : DataFrame) (h h' : gmap ref DataFrame),
    NoDup feature_cols ->
    ~ In cc_col feature_cols ->
    (forall l, In l feature_cols -> In l (columns d)) ->
    h !! r = Some d ->
    getitem d cc_col = Some (Numeric xs) ->
    regress_loop r cc_col feature_cols h = (Ok tt, h') ->
    exists d',
      h' = <[r := d']> h
      /\ columns d' = columns d
      /\ (forall l, ~ In l feature_cols -> getitem d' l = getitem d l)
      /\ (forall l, In l feature_cols ->
                    exists ys rs,
                      getitem d l = Some (Numeric ys)
                      /\ Ols.resid l ys xs = Ok rs
                      /\ getitem d' l = Some (Numeric rs)).
Proof.
  induction feature_cols as [|f rest IH]; intros d h h' Hnd Hcc Hcols Hr Hx Hrun.
  - injection Hrun as <-. exists d. split.
    + symmetry. now apply insert_id.
    + repeat split; auto. intros l [].
  - simpl in Hrun. unfold deref in Hrun. rewrite Hr in Hrun.
    destruct (ols_resid d f cc_col) as [rs0|e] eqn:Hfit; [|discriminate].
    unfold assign in Hrun.
    apply ols_resid_inv in Hfit as (ys0 & xs0 & Hy0 & Hx0 & Hres0).
    rewrite Hx in Hx0. injection Hx0 as <-.
    apply NoDup_cons in Hnd as [Hf Hnd]. rewrite list_elem_of_In in Hf.
    assert (f <> cc_col) as Hfc by (intros ->; apply Hcc; now left).
    set (d1 := setitem d f (Numeric rs0)) in *.
    assert (columns d1 = columns d) as Hc1.
    { apply columns_setitem. apply Hcols. now left. }
    destruct (IH d1 (<[r := d1]> h) h') as (d' & Hh' & Hc' & Hout & Hin).
    + exact Hnd.
    + intros Hin. apply Hcc. now right.
    + intros l Hl. rewrite Hc1. apply Hcols. now right.
    + apply lookup_insert_eq.
    + unfold d1. rewrite getitem_setitem_ne by exact Hfc. exact Hx.
    + exact Hrun.
    + exists d'. split; [|split; [|split]].
      * rewrite Hh'. apply insert_insert_eq.
      * congruence.
      * intros l Hl. rewrite Hout by (intros ?; apply Hl; now right).
        unfold d1. apply getitem_setitem_ne. intros ->. apply Hl. now left.
      * intros l [<-|Hl].
        -- exists ys0, rs0. split; [exact Hy0|]. split; [exact Hres0|].
           rewrite Hout by exact Hf. unfold d1. apply getitem_setitem_eq.
        -- destruct (Hin l Hl) as (ys & rs & Hy & Hres & Hl').
           exists ys, rs. split; [|auto].
           unfold d1 in Hy. rewrite getitem_setitem_ne in Hy; [exact Hy|].
           intros ->. contradiction.
Qed.

Lemma NoDup_feature_cols_of (df : DataFrame) :
  NoDup (columns df) -> NoDup (feature_cols_of df).
Proof.
  unfold feature_cols_of. generalize (columns df) as l.
  induction l as [|x l IH]; simpl; intros H; [constructor|].
  apply NoDup_cons in H as [Hx Hl].
  destruct (is_feature x); [|auto].
  constructor; [|auto].
  rewrite list_elem_of_In in *. intros Hin. apply Hx.
  now apply filter_In in Hin as [Hin _].
Qed.

Lemma getitem_rename_other (d : DataFrame) (old new l : string) :
  l <> old -> l <> new -> getitem (rename d old new) l = getitem d l.
Proof.
  intros Ho Hn. induction d as [|[l0 c0] d IH]; simpl; [reflexivity|].
  destruct (String.eqb l0 old) eqn:E; simpl.
  - apply String.eqb_eq in E. subst l0.
    assert (String.eqb new l = false) as -> by (apply String.eqb_neq; congruence).
    assert (String.eqb old l = false) as -> by (apply String.eqb_neq; congruence).
    exact IH.
  - destruct (String.eqb l0 l); [reflexivity | exact IH].
Qed.

(** What a returning call of [regress_out_cell_counts] has done. *)
Lemma regress_out_cell_counts_inv (r r' : ref) (cc_col : string)
    (cc_rename : option string) (h h' : gmap ref DataFrame) :
  regress_out_cell_counts r cc_col cc_rename h = (Ok r', h') ->
  exists d h1 d1,
    h !! r = Some d
    /\ regress_loop r cc_col (feature_cols_of d) h = (Ok tt, h1)
    /\ (cc_rename <> None -> h1 !! r = Some d1)
    /\ r' = r
    /\ h' = match cc_rename with
            | Some new => <[r := rename d1 cc_col new]> h1
            | None => h1
            end.
Proof.
  unfold regress_out_cell_counts. simpl. unfold deref at 1.
  destruct (h !! r) as [d|] eqn:Hr; [|discriminate].
  destruct (regress_loop r cc_col (feature_cols_of d) h) as [[[]|e] h1] eqn:Hl;
    [|discriminate].
  destruct cc_rename as [new|]; simpl.
  - unfold deref, assign. destruct (h1 !! r) as [d1|] eqn:H1; [|discriminate].
    intros [= <- <-]. exists d, h1, d1. auto.
  - intros [= <- <-]. exists d, h1, d. repeat split; auto. congruence.
Qed.

(** X19. In exact rational arithmetic: when the cell-count column is a
    numeric column that is not itself one of the feature columns, a returning
    call of [regress_out_cell_counts] leaves in every feature column of the
    input (other than one the cell-count column is renamed to) the
    least-squares residuals of its values on the cell-count column, and these
    have no codeviation with the cell-count column: their Pearson correlation
    with it is zero whenever it exists. *)
Theorem regress_out_cell_counts_uncorrelated
    (h h' : gmap ref DataFrame) (r r' : ref) (df df' : DataFrame)
    (cc_col : string) (cc_rename : option string)
    (l : string) (xs rs : list cell) :
  h !! r = Some df ->
  wf_frame df = true ->
  is_feature cc_col = false ->
  regress_out_cell_counts r cc_col cc_rename h = (Ok r', h') ->
  h' !! r' = Some df' ->
  is_feature l = true ->
  In l (columns df) ->
  cc_rename <> Some l ->
  getitem df cc_col = Some (Numeric xs) ->
  getitem df' l = Some (Numeric rs) ->
  (exists ys, getitem df l = Some (Numeric ys) /\ Ols.resid l ys xs = Ok rs)
  /\ codeviation rs xs = 0.
Proof.
  intros Hr Hwf Hcc Hrun Hr' Hf Hin Hren Hx Hl'.
  apply regress_out_cell_counts_inv in Hrun
    as (d & h1 & d1 & Hr0 & Hloop & Hd1 & -> & ->).
  rewrite Hr in Hr0. injection Hr0 as <-.
  apply wf_frame_spec in Hwf as [Hnd _].
  assert (~ In cc_col (feature_cols_of df)) as Hnotin.
  { intros H. apply in_feature_cols_of in H as [_ H]. congruence. }
  destruct (regress_loop_inv r cc_col xs (feature_cols_of df) df h h1)
    as (d' & -> & _ & _ & Hres); auto using NoDup_feature_cols_of.
  { intros l0 Hl0. now apply in_feature_cols_of in Hl0 as [Hl0 _]. }
  destruct (Hres l) as (ys & rs' & Hy & Hfit & Hd').
  { apply in_feature_cols_of. auto. }
  assert (l <> cc_col) as Hlc by congruence.
  assert (rs' = rs) as ->.
  { destruct cc_rename as [new|].
    - rewrite lookup_insert_eq in Hr'. injection Hr' as <-.
      rewrite lookup_insert_eq in Hd1.
      assert (Some d' = Some d1) as [= <-] by (apply Hd1; discriminate).
      rewrite getitem_rename_other in Hl'; congruence.
    - rewrite lookup_insert_eq in Hr'. injection Hr' as <-. congruence. }
  split; [eauto|]. eapply codeviation_resid; eauto.
Qed.

Lemma regress_out_cell_counts_uncorrelated_witness :
  exists rs,
    (exists ys, getitem frame_counts "Feature_X" = Some (Numeric ys)
                /\ Ols.resid "Feature_X" ys
                     [Some (Num.of_Z 1); Some (Num.of_Z 2); Some (Num.of_Z 3)]
                   = Ok rs)
    /\ codeviation rs [Some (Num.of_Z 1); Some (Num.of_Z 2); Some (Num.of_Z 3)]
       = 0.
Proof.
  eexists.
  eapply (regress_out_cell_counts_uncorrelated
            {[1%positive := frame_counts]} _ 1%positive 1%positive
            frame_counts _ "Metadata_Count" (Some "Metadata_Count_Used"%string)
            "Feature_X").
  - reflexivity.
  - reflexivity.
  - reflexivity.
  - vm_compute. reflexivity.
  - vm_compute. reflexivity.
  - reflexivity.
  - simpl. tauto.
  - discriminate.
  - reflexivity.
  - reflexivity.
Defined.

(** C2 at a frame whose cell-count column [Cells] is one of the features,
    ahead of [Feature_X].  The loop first overwrites [Cells] with the
    residuals of its regression on itself - zeros in exact arithmetic, for
    which no Pearson correlation with the cell counts exists - and then fits
    [Feature_X] on the overwritten column, not on the cell counts: the values
    it leaves in [Feature_X] have a Pearson correlation with the original
    cell counts that exists and is not zero. *)
Theorem regress_out_cell_counts_correlated :
  exists (h' : gmap ref DataFrame) (df' : DataFrame) (rs : list cell),
    regress_out_cell_counts 1%positive "Cells" None
      {[1%positive := frame_cells]} = (Ok 1%positive, h')
    /\ h' !! 1%positive = Some df'
    /\ is_feature "Cells" = true
    /\ getitem df' "Cells" = Some (Numeric [Some 0; Some 0; Some 0])
    /\ pearson_defined [Some 0; Some 0; Some 0]
         [Some (Num.of_Z 1); Some (Num.of_Z 2); Some (Num.of_Z 3)] = false
    /\ is_feature "Feature_X" = true
    /\ getitem df' "Feature_X" = Some (Numeric rs)
    /\ pearson_defined rs
         [Some (Num.of_Z 1); Some (Num.of_Z 2); Some (Num.of_Z 3)] = true
    /\ codeviation rs [Some (Num.of_Z 1); Some (Num.of_Z 2); Some (Num.of_Z 3)]
       = Num.of_Z 3
    /\ codeviation rs [Some (Num.of_Z 1); Some (Num.of_Z 2); Some (Num.of_Z 3)]
       <> 0.
Proof.
  eexists. eexists. eexists.
  split; [vm_compute; reflexivity|].
  split; [vm_compute; reflexivity|].
  split; [reflexivity|].
  split; [reflexivity|].
  split; [vm_compute; reflexivity|].
  split; [reflexivity|].
  split; [reflexivity|].
  split; [vm_compute; reflexivity|].
  split.
  - apply Qc_is_canon. vm_compute. reflexivity.
  - intros H. apply (f_equal this) in H. vm_compute in H. discriminate H.
Qed.

(** C1 at the input of the claim. The cell-count column [Cells] is one of the
    feature columns, so the loop replaces it by the residuals of its
    regression on itself: after the call, [Cells] is absent and [Cells_Used]
    is present, but it holds zeros, not the cell counts [1, 2, 3]. *)
Theorem regress_out_cell_counts_rename_example :
  exists (h' : gmap ref DataFrame) (df' : DataFrame),
    regress_out_cell_counts 1%positive "Cells" (Some "Cells_Used"%string)
      {[1%positive := frame_cells]} = (Ok 1%positive, h')
    /\ h' !! 1%positive = Some df'
    /\ getitem frame_cells "Cells"
       = Some (Numeric [Some (Num.of_Z 1); Some (Num.of_Z 2); Some (Num.of_Z 3)])
    /\ getitem df' "Cells" = None
    /\ getitem df' "Cells_Used" = Some (Numeric [Some 0; Some 0; Some 0]).
Proof.
  eexists. eexists.
  split; [vm_compute; reflexivity|].
  split; [vm_compute; reflexivity|].
  repeat split.
Qed.

(** * Further properties *)

(** ** Well-mean subtraction, continued *)

Lemma transform_center_zip (ks : list (option key)) (vs : list cell) :
  length vs = length ks ->
  transform center ks vs = zip_with (row_result (center_entry ks vs)) ks vs.
Proof.
  intros Hl. unfold transform. now apply scatter_map.
Qed.

Lemma zip_with_absorb {A B} (f f0 : A -> B -> B) (ks : list A) :
  (forall k v, f k (f0 k v) = f0 k v) ->
  forall vs, zip_with f ks (zip_with f0 ks vs) = zip_with f0 ks vs.
Proof.
  intros H. induction ks as [|k ks IH]; intros [|v vs]; simpl; try reflexivity.
  now rewrite H, IH.
Qed.

Lemma length_zip_with_same {A B C} (f : A -> B -> C) (ks : list A) (vs : list B) :
  length vs = length ks -> length (zip_with f ks vs) = length ks.
Proof.
  revert vs. induction ks as [|k ks IH]; intros [|v vs] H; simpl in *;
    try discriminate; auto.
Qed.

(** Centring a centred column changes nothing. *)
Lemma transform_center_idempotent (ks : list (option key)) (vs : list cell) :
  length vs = length ks ->
  transform center ks (transform center ks vs) = transform center ks vs.
Proof.
  intros Hl.
  rewrite (transform_center_zip ks (transform center ks vs))
    by (now rewrite length_transform).
  rewrite (transform_center_zip ks vs Hl) at 2 3.
  apply zip_with_absorb. intros [k|] v; simpl; [|reflexivity].
  unfold center_entry at 2 3.
  destruct v as [a|]; [|reflexivity].
  destruct (series_mean (group_rows k ks vs)) as [m|] eqn:Em; [|reflexivity].
  unfold center_entry.
  rewrite group_rows_transform; [| apply length_center | exact Hl].
  rewrite series_mean_center.
  - f_equal. ring.
  - intros E. apply series_mean_None in E. congruence.
Qed.

Lemma setitem_same (df : DataFrame) (l : string) (c : coldata) :
  getitem df l = Some c -> setitem df l c = df.
Proof.
  induction df as [|[l0 c0] df IH]; simpl; [discriminate|].
  destruct (String.eqb l0 l) eqn:E.
  - now intros [= ->].
  - intros H. now rewrite IH.
Qed.

Lemma setitems_same (F : string -> coldata) (labels : list string)
    (df : DataFrame) :
  (forall l, In l labels -> getitem df l = Some (F l)) ->
  setitems df (map (fun l => (l, F l)) labels) = df.
Proof.
  induction labels as [|l labels IH]; intros H; simpl; [reflexivity|].
  rewrite setitem_same by (apply H; now left).
  apply IH. intros l' Hl'. apply H. now right.
Qed.

Lemma setitems_ext (F G : string -> coldata) (labels : list string)
    (df : DataFrame) :
  (forall l, In l labels -> F l = G l) ->
  setitems df (map (fun l => (l, F l)) labels)
  = setitems df (map (fun l => (l, G l)) labels).
Proof.
  intros H. f_equal. apply map_ext_in. intros l Hl. now rewrite H.
Qed.

(** X1. In exact rational arithmetic, well-mean subtraction is idempotent:
    a second call on the frame a first call returned succeeds and leaves the
    heap as it is.  (Rounding is outside the model: in floating point the
    second call can move values by rounding errors.) *)
Theorem subtract_well_mean_idempotent
    (h h' : gmap ref DataFrame) (r r' : ref) (df : DataFrame) :
  h !! r = Some df ->
  wf_frame df = true ->
  subtract_well_mean r h = (Ok r', h') ->
  subtract_well_mean r' h' = (Ok r', h').
Proof.
  intros Hr Hwf Hrun.
  pose proof (subtract_well_mean_inv_features _ _ _ _ _ Hr Hrun) as Hne.
  apply subtract_well_mean_inv in Hrun as (df0 & kc & Hr0 & Hk & Hnum & -> & ->).
  rewrite Hr in Hr0. injection Hr0 as <-.
  apply wf_frame_spec in Hwf as [_ Hrows].
  set (df1 := setitems df (map (fun l => (l, centered_at kc df l))
                               (feature_cols_of df))).
  assert (forall l, getitem df1 l
                    = if is_feature l
                      then option_map (centered_col kc) (getitem df l)
                      else getitem df l) as Hget.
  { intros l. apply subtract_well_mean_getitem. }
  assert (columns df1 = columns df) as Hcols.
  { apply columns_setitems. intros l Hl.
    now apply in_feature_cols_of in Hl as [Hl _]. }
  assert (feature_cols_of df1 = feature_cols_of df) as Hfeat.
  { unfold feature_cols_of. now rewrite Hcols. }
  assert (getitem df1 "Metadata_Well" = Some kc) as Hk1.
  { rewrite Hget. exact Hk. }
  unfold subtract_well_mean, deref, assign. simpl.
  rewrite lookup_insert_eq.
  rewrite (groupby_transform_center_Ok df1 _ kc); [| now rewrite Hfeat | exact Hk1 |].
  2:{ intros l Hl. rewrite Hfeat in Hl. destruct (Hnum l Hl) as [vs Hvs].
      apply in_feature_cols_of in Hl as [_ Hf].
      rewrite Hget, Hf, Hvs. simpl. eauto. }
  rewrite insert_insert_eq. do 2 f_equal.
  rewrite Hfeat. apply setitems_same.
  intros l Hl. destruct (Hnum l Hl) as [vs Hvs].
  apply in_feature_cols_of in Hl as [_ Hf].
  unfold centered_at. rewrite Hget, Hf, Hvs. simpl. do 2 f_equal.
  symmetry. apply transform_center_idempotent.
  rewrite length_keys_of. exact (Hrows _ _ _ _ Hvs Hk).
Qed.

Lemma subtract_well_mean_idempotent_witness :
  subtract_well_mean 1%positive {[1%positive := frame_example_centered]}
  = (Ok 1%positive, {[1%positive := frame_example_centered]}).
Proof.
  apply (subtract_well_mean_idempotent
           {[1%positive := frame_example]} _ 1%positive 1%positive
           frame_example); reflexivity.
Defined.

(** X2. A call of [subtract_well_mean] that raises has changed nothing; and
    on a frame without the column [Metadata_Well] it raises the key error of
    that label. *)
Theorem subtract_well_mean_raise_unchanged
    (h h' : gmap ref DataFrame) (r : ref) (e : exn) :
  subtract_well_mean r h = (Raise e, h') ->
  h' = h
  /\ forall df, h !! r = Some df -> getitem df "Metadata_Well" = None ->
                e = KeyError "Metadata_Well".
Proof.
  unfold subtract_well_mean, deref, assign. simpl.
  destruct (h !! r) as [df|] eqn:Hr.
  - destruct (groupby_transform df "Metadata_Well" (feature_cols_of df) center)
      as [new|e0] eqn:Hg; [discriminate|].
    intros [= <- <-]. split; [reflexivity|].
    intros df0 [= <-] Hk. unfold groupby_transform in Hg. rewrite Hk in Hg.
    congruence.
  - intros [= <- <-]. split; [reflexivity | discriminate].
Qed.

Lemma subtract_well_mean_raise_unchanged_witness :
  ({[1%positive := frame_cells]} : gmap ref DataFrame)
  = {[1%positive := frame_cells]}
  /\ forall df, ({[1%positive := frame_cells]} : gmap ref DataFrame)
                  !! 1%positive = Some df ->
                getitem df "Metadata_Well" = None ->
                KeyError "Metadata_Well" = KeyError "Metadata_Well".
Proof.
  apply (subtract_well_mean_raise_unchanged
           {[1%positive := frame_cells]} _ 1%positive).
  reflexivity.
Defined.

Lemma scatter_ext (ks : list (option key)) :
  forall res res' : key -> list cell,
    (forall k, res k = res' k) -> scatter ks res = scatter ks res'.
Proof.
  induction ks as [|[k|] ks IH]; intros res res' H; simpl.
  - reflexivity.
  - rewrite H. f_equal. apply IH. intros k'. now rewrite H.
  - f_equal. now apply IH.
Qed.

Lemma group_rows_shift_by (off : key -> Qc) (k : key) (ks : list (option key)) :
  forall vs,
    group_rows k ks (shift_by off ks vs)
    = map (option_map (fun a => a + off k)) (group_rows k ks vs).
Proof.
  induction ks as [|[k'|] ks IH]; intros [|v vs]; simpl; try reflexivity.
  - destruct (key_eqb k' k) eqn:E; [|apply IH].
    apply key_eqb_eq in E. subst k'. simpl. rewrite IH.
    now destruct v.
  - apply IH.
Qed.

Lemma dropna_map_add (c : Qc) (x : list cell) :
  dropna (map (option_map (fun a => a + c)) x)
  = map (fun a => a + c) (dropna x).
Proof.
  induction x as [|[a|] x IH]; simpl; [reflexivity | | exact IH].
  now rewrite IH.
Qed.

Lemma sum_map_add (c : Qc) (l : list Qc) :
  Num.sum (map (fun a => a + c) l) = Num.sum l + Num.count l * c.
Proof.
  induction l as [|a l IH]; simpl; [ring|]. rewrite IH. ring.
Qed.

Lemma mean_map_add (c : Qc) (l : list Qc) :
  Num.mean (map (fun a => a + c) l) = option_map (fun m => m + c) (Num.mean l).
Proof.
  destruct l as [|a l]; [reflexivity|].
  rewrite !mean_nonempty by discriminate.
  rewrite sum_map_add, count_map_id. simpl option_map. f_equal.
  pose proof (count_cons_neq_0 a l) as Hn.
  simpl Num.sum in *. simpl Num.count in *. now field.
Qed.

(** Adding a constant to a series does not change the centred series. *)
Lemma center_map_add (c : Qc) (x : list cell) :
  center (map (option_map (fun a => a + c)) x) = center x.
Proof.
  unfold center, series_mean. rewrite dropna_map_add, mean_map_add.
  unfold series_sub_scalar. rewrite map_map. apply map_ext.
  intros [a|]; simpl; [|reflexivity].
  destruct (Num.mean (dropna x)) as [m|]; simpl; [|reflexivity].
  f_equal. ring.
Qed.

(** X3. In exact rational arithmetic, well-mean subtraction removes what is
    constant within a well: adding to a feature column an offset that depends
    only on the well of the row does not change the centred column. *)
Theorem transform_center_shift_by (off : key -> Qc)
    (ks : list (option key)) (vs : list cell) :
  transform center ks (shift_by off ks vs) = transform center ks vs.
Proof.
  unfold transform. apply scatter_ext. intros k.
  now rewrite group_rows_shift_by, center_map_add.
Qed.

(** ** Sorting and the median *)

Lemma Num_leb_le (a b : Qc) : Num.leb a b = true <-> a <= b.
Proof. unfold Num.leb. apply Qle_bool_iff. Qed.

Lemma Num_leb_ext (a b c d : Qc) :
  (a <= b <-> c <= d) -> Num.leb a b = Num.leb c d.
Proof.
  intros H. destruct (Num.leb a b) eqn:E1, (Num.leb c d) eqn:E2; try reflexivity.
  - apply Num_leb_le, H, Num_leb_le in E1. congruence.
  - apply Num_leb_le, H, Num_leb_le in E2. congruence.
Qed.

Lemma In_insert (x a : Qc) (l : list Qc) :
  In x (Num.insert a l) <-> x = a \/ In x l.
Proof.
  induction l as [|b l IH]; simpl.
  - intuition.
  - destruct (Num.leb a b); simpl; [intuition|]. rewrite IH. intuition.
Qed.

Lemma In_sort (x : Qc) (l : list Qc) : In x (Num.sort l) <-> In x l.
Proof.
  induction l as [|a l IH]; simpl; [tauto|].
  rewrite In_insert, IH. intuition.
Qed.

(** The sort puts its values in ascending order. *)
Lemma insert_sorted (a : Qc) (l : list Qc) :
  Sorted Qcle l -> Sorted Qcle (Num.insert a l).
Proof.
  induction 1 as [|b l Hs IH Hb]; simpl.
  - repeat constructor.
  - destruct (Num.leb a b) eqn:E.
    + apply Num_leb_le in E. repeat constructor; auto.
    + assert (b <= a) as Hba.
      { apply Qclt_le_weak, Qcnot_le_lt. intros H.
        apply Num_leb_le in H. congruence. }
      constructor; [exact IH|].
      destruct Hb as [|c l' Hbc]; simpl.
      * repeat constructor. exact Hba.
      * destruct (Num.leb a c); constructor; assumption.
Qed.

Lemma sort_sorted (l : list Qc) : Sorted Qcle (Num.sort l).
Proof.
  induction l as [|a l IH]; simpl; [constructor | now apply insert_sorted].
Qed.

Lemma insert_perm (a : Qc) (l : list Qc) : Permutation (Num.insert a l) (a :: l).
Proof.
  induction l as [|b l IH]; simpl; [reflexivity|].
  destruct (Num.leb a b); [reflexivity|].
  rewrite IH. apply perm_swap.
Qed.

Lemma sort_perm (l : list Qc) : Permutation (Num.sort l) l.
Proof.
  induction l as [|a l IH]; simpl; [reflexivity|].
  rewrite insert_perm. now constructor.
Qed.

Lemma two_eq : Num.of_Z 2 = 1 + 1.
Proof. apply Qc_is_canon. reflexivity. Qed.

Lemma two_neq_0 : Num.of_Z 2 <> 0.
Proof. intros H. apply (f_equal this) in H. discriminate H. Qed.

(** The median of values with a common property has it too, when the
    property is kept by taking midpoints. *)
Lemma median_ind (P : Qc -> Prop) (l : list Qc) (m : Qc) :
  (forall a b, P a -> P b -> P ((a + b) / Num.of_Z 2)) ->
  (forall x, In x l -> P x) ->
  Num.median l = Some m -> P m.
Proof.
  intros Hmid Hall. unfold Num.median.
  assert (forall i, (i < length (Num.sort l))%nat -> P (nth i (Num.sort l) 0))
    as Hnth.
  { intros i Hi. apply Hall, In_sort. now apply nth_In. }
  destruct (length (Num.sort l)) as [|n] eqn:En; [discriminate|].
  assert (S n / 2 < S n)%nat as H1 by (apply Nat.div_lt; auto with arith).
  remember (S n / 2)%nat as k eqn:Ek. clear Ek.
  destruct (Nat.even (S n)); intros [= <-].
  - apply Hmid; apply Hnth; lia.
  - apply Hnth; lia.
Qed.

Section monotone.

Variable f : Qc -> Qc.
Hypothesis f_mono : forall a b, Num.leb (f a) (f b) = Num.leb a b.
Hypothesis f_mid :
  forall a b, f ((a + b) / Num.of_Z 2) = (f a + f b) / Num.of_Z 2.

Lemma insert_map (a : Qc) (l : list Qc) :
  Num.insert (f a) (map f l) = map f (Num.insert a l).
Proof.
  induction l as [|b l IH]; simpl; [reflexivity|].
  rewrite f_mono. destruct (Num.leb a b); simpl; [reflexivity|].
  now rewrite IH.
Qed.

Lemma sort_map (l : list Qc) : Num.sort (map f l) = map f (Num.sort l).
Proof.
  induction l as [|a l IH]; simpl; [reflexivity|].
  now rewrite IH, insert_map.
Qed.

(** An ascending map that keeps midpoints commutes with the median. *)
Lemma median_map (l : list Qc) :
  Num.median (map f l) = option_map f (Num.median l).
Proof.
  unfold Num.median. rewrite sort_map, length_map.
  assert (forall i, (i < length (Num.sort l))%nat ->
                    nth i (map f (Num.sort l)) 0 = f (nth i (Num.sort l) 0))
    as Hnth.
  { intros i Hi. rewrite (nth_indep _ 0 (f 0)) by now rewrite length_map.
    apply map_nth. }
  destruct (length (Num.sort l)) as [|n] eqn:En; [reflexivity|].
  assert (S n / 2 < S n)%nat as H1 by (apply Nat.div_lt; auto with arith).
  remember (S n / 2)%nat as k eqn:Ek. clear Ek.
  destruct (Nat.even (S n)); simpl option_map; f_equal.
  - rewrite !Hnth by lia. now rewrite f_mid.
  - apply Hnth. lia.
Qed.

End monotone.

(** ** MAD robustization, continued *)

Lemma abs_nonneg (a : Qc) : 0 <= Num.abs a.
Proof.
  unfold Num.abs. destruct (Num.leb 0 a) eqn:E.
  - now apply Num_leb_le.
  - assert (a <= 0) as H.
    { apply Qclt_le_weak, Qcnot_le_lt. intros H.
      apply Num_leb_le in H. congruence. }
    apply Qcopp_le_compat in H. now replace (- 0) with 0 in H by ring.
Qed.

Lemma abs_0 : Num.abs 0 = 0.
Proof. reflexivity. Qed.

Lemma half_nonneg (a b : Qc) : 0 <= a -> 0 <= b -> 0 <= (a + b) / Num.of_Z 2.
Proof.
  intros Ha Hb. unfold Qcdiv. apply Qcmult_nonneg_nonneg.
  - now apply Qcplus_nonneg_nonneg.
  - apply Qclt_le_weak, Qcinv_pos. reflexivity.
Qed.

Lemma c14826_pos : 0 < c14826.
Proof. reflexivity. Qed.

(** The MAD is never negative. *)
Lemma median_abs_nonneg (med : Qc) (l : list Qc) (mad : Qc) :
  Num.median (map (fun x => Num.abs (x - med)) l) = Some mad -> 0 <= mad.
Proof.
  apply (median_ind (fun q => 0 <= q)).
  - apply half_nonneg.
  - intros x Hx. apply in_map_iff in Hx as (y & <- & _). apply abs_nonneg.
Qed.

(** X5. A positive epsilon guards the division: the denominator is then
    positive, and every present entry gives a finite number. *)
Theorem mad_robustize_col_epsilon_guard (col : list cell) (epsilon : Qc)
    (i : nat) (v : Qc) :
  0 < epsilon ->
  col !! i = Some (Some v) ->
  exists d q,
    scalar_add (median_abs_deviation col (1 / c14826)) epsilon = Some d
    /\ 0 < d
    /\ mad_robustize_col col epsilon !! i = Some (Fin q).
Proof.
  intros Heps Hi.
  destruct (mad_robustize_col_present col epsilon i v Hi)
    as (med & mad & _ & Hdev & Hmad & E).
  assert (0 < mad * c14826 + epsilon) as Hd.
  { apply Qcplus_nonneg_pos; [|exact Heps].
    apply Qcmult_nonneg_nonneg.
    - exact (median_abs_nonneg _ _ _ Hdev).
    - apply Qclt_le_weak, c14826_pos. }
  exists (mad * c14826 + epsilon). eexists.
  split; [now rewrite Hmad|]. split; [exact Hd|].
  rewrite E, fdiv_finite; [reflexivity|].
  intros H0. rewrite H0 in Hd. now apply Qclt_not_eq in Hd.
Qed.

Lemma mad_robustize_col_epsilon_guard_witness :
  exists d q,
    scalar_add (median_abs_deviation col_example (1 / c14826)) 1 = Some d
    /\ 0 < d
    /\ mad_robustize_col col_example 1 !! 3%nat = Some (Fin q).
Proof.
  apply (mad_robustize_col_epsilon_guard col_example 1 3%nat (Num.of_Z 4));
    reflexivity.
Defined.

(** The median of equal values is that value. *)
Lemma median_const (c : Qc) (l : list Qc) :
  l <> [] -> (forall x, In x l -> x = c) -> Num.median l = Some c.
Proof.
  intros Hl Hall. destruct (median_nonempty l Hl) as [m Hm].
  rewrite Hm. f_equal.
  apply (median_ind (fun q => q = c) l m); auto.
  intros a b -> ->. rewrite two_eq. field. discriminate.
Qed.

(** X6. A column whose present entries are all equal has MAD zero: with
    epsilon zero every present entry is zero over zero, NaN; with another
    epsilon every present entry is zero. *)
Theorem mad_robustize_col_constant (col : list cell) (epsilon c : Qc)
    (i : nat) (v : Qc) :
  (forall x, In x (dropna col) -> x = c) ->
  col !! i = Some (Some v) ->
  mad_robustize_col col epsilon !! i
  = Some (if Num.eqb epsilon 0 then NaN else Fin 0).
Proof.
  intros Hall Hi.
  destruct (mad_robustize_col_present col epsilon i v Hi)
    as (med & mad & Hmed & Hdev & _ & E).
  pose proof (dropna_lookup _ _ _ Hi) as Hne.
  unfold series_median in Hmed.
  rewrite (median_const c _ Hne Hall) in Hmed. injection Hmed as <-.
  rewrite (median_const 0) in Hdev.
  - injection Hdev as <-.
    assert (v = c) as ->.
    { apply Hall. clear - Hi. revert i Hi.
      induction col as [|[a|] col IH]; intros [|i] Hi; simpl in *;
        try discriminate; eauto.
      injection Hi as ->. now left. }
    rewrite E. replace (c - c) with 0 by ring.
    replace (0 * c14826 + epsilon) with epsilon by ring.
    unfold fdiv. destruct (Num.eqb epsilon 0); [reflexivity|].
    do 2 f_equal. unfold Qcdiv. ring.
  - destruct (dropna col); [congruence | discriminate].
  - intros x Hx. apply in_map_iff in Hx as (y & <- & Hy).
    rewrite (Hall y Hy). replace (c - c) with 0 by ring. apply abs_0.
Qed.

Lemma mad_robustize_col_constant_witness :
  mad_robustize_col [Some (Num.of_Z 7); None; Some (Num.of_Z 7)] 0 !! 2%nat
  = Some (if Num.eqb 0 0 then NaN else Fin 0).
Proof.
  apply (mad_robustize_col_constant
           [Some (Num.of_Z 7); None; Some (Num.of_Z 7)] 0 (Num.of_Z 7)
           2%nat (Num.of_Z 7)).
  - simpl. intros x [<-|[<-|[]]]; reflexivity.
  - reflexivity.
Defined.

Lemma leb_add (c a b : Qc) : Num.leb (a + c) (b + c) = Num.leb a b.
Proof. apply Num_leb_ext. symmetry. apply Qcplus_le_mono_r. Qed.

Lemma mid_add (c a b : Qc) :
  (a + b) / Num.of_Z 2 + c = ((a + c) + (b + c)) / Num.of_Z 2.
Proof. rewrite two_eq. field. discriminate. Qed.

(** X7. In exact rational arithmetic, MAD robustization does not see a shift
    of the column: adding a constant to every present entry leaves the result
    unchanged. *)
Theorem mad_robustize_col_shift (col : list cell) (epsilon c : Qc) :
  mad_robustize_col (map (option_map (fun a => a + c)) col) epsilon
  = mad_robustize_col col epsilon.
Proof.
  assert (series_median (map (option_map (fun a => a + c)) col)
          = option_map (fun m => m + c) (series_median col)) as Hmed.
  { unfold series_median. rewrite dropna_map_add.
    apply median_map; [apply leb_add | apply mid_add]. }
  assert (forall s, median_abs_deviation (map (option_map (fun a => a + c)) col) s
                    = median_abs_deviation col s) as Hmad.
  { intros s. unfold median_abs_deviation. rewrite dropna_map_add.
    rewrite (median_map (fun a => a + c)) by (apply leb_add || apply mid_add).
    destruct (Num.median (dropna col)) as [med|]; simpl; [|reflexivity].
    rewrite map_map.
    rewrite (map_ext (fun x => Num.abs (x + c - (med + c)))
                     (fun x => Num.abs (x - med))); [reflexivity|].
    intros x. f_equal. ring. }
  unfold mad_robustize_col. rewrite Hmad, Hmed.
  unfold series_div_scalar, series_sub_scalar. rewrite !map_map.
  apply map_ext. intros [a|]; simpl; [|reflexivity].
  destruct (series_median col) as [med|]; simpl; [|reflexivity].
  replace (a + c - (med + c)) with (a - med) by ring. reflexivity.
Qed.

Lemma fin_values_quotients (med d : Qc) (col : list cell) :
  d <> 0 ->
  fin_values (series_div_scalar (series_sub_scalar col (Some med)) (Some d))
  = map (fun v => (v - med) / d) (dropna col).
Proof.
  intros Hd. unfold series_div_scalar, series_sub_scalar. rewrite map_map.
  induction col as [|[a|] col IH]; simpl; [reflexivity | | exact IH].
  apply Num_eqb_neq in Hd. rewrite Hd. simpl. now rewrite IH.
Qed.

Lemma leb_quotient (med d a b : Qc) :
  0 < d -> Num.leb ((a - med) / d) ((b - med) / d) = Num.leb a b.
Proof.
  intros Hd. apply Num_leb_ext. unfold Qcdiv.
  rewrite <- (Qcmult_le_mono_pos_r _ _ (/ d)) by now apply Qcinv_pos.
  unfold Qcminus. symmetry. apply Qcplus_le_mono_r.
Qed.

Lemma mid_quotient (med d a b : Qc) :
  d <> 0 ->
  ((a + b) / Num.of_Z 2 - med) / d
  = ((a - med) / d + (b - med) / d) / Num.of_Z 2.
Proof.
  intros Hd. rewrite two_eq. field.
  repeat split; try exact Hd; discriminate.
Qed.

(** X4. In exact rational arithmetic, when mad + epsilon is positive, the
    robustized column has median zero. *)
Theorem mad_robustize_col_median_zero (col : list cell) (epsilon d : Qc) :
  scalar_add (median_abs_deviation col (1 / c14826)) epsilon = Some d ->
  0 < d ->
  Num.median (fin_values (mad_robustize_col col epsilon)) = Some 0.
Proof.
  intros Hd Hpos.
  assert (d <> 0) as Hne.
  { intros ->. now apply Qclt_not_eq in Hpos. }
  unfold mad_robustize_col. rewrite Hd.
  unfold scalar_add, median_abs_deviation in Hd.
  unfold series_median.
  destruct (Num.median (dropna col)) as [med|] eqn:Hmed; [|discriminate].
  rewrite (fin_values_quotients med d col Hne).
  rewrite (median_map (fun v => (v - med) / d)).
  - rewrite Hmed. simpl. f_equal. unfold Qcdiv. ring.
  - intros a b. now apply leb_quotient.
  - intros a b. now apply mid_quotient.
Qed.

Lemma mad_robustize_col_median_zero_witness :
  Num.median (fin_values (mad_robustize_col col_example 0)) = Some 0.
Proof.
  eapply (mad_robustize_col_median_zero col_example 0).
  - vm_compute. reflexivity.
  - reflexivity.
Defined.

Lemma dropna_map_option (f : Qc -> Qc) (x : list cell) :
  dropna (map (option_map f) x) = map f (dropna x).
Proof.
  induction x as [|[a|] x IH]; simpl; [reflexivity | | exact IH].
  now rewrite IH.
Qed.

Lemma leb_scale (a x y : Qc) : 0 < a -> Num.leb (a * x) (a * y) = Num.leb x y.
Proof.
  intros Ha. apply Num_leb_ext. symmetry. now apply Qcmult_le_mono_pos_l.
Qed.

Lemma mid_scale (a x y : Qc) :
  a * ((x + y) / Num.of_Z 2) = (a * x + a * y) / Num.of_Z 2.
Proof. rewrite two_eq. field. discriminate. Qed.

Lemma leb_0_scale (a x : Qc) : 0 < a -> Num.leb 0 (a * x) = Num.leb 0 x.
Proof.
  intros Ha. rewrite <- (leb_scale a 0 x Ha). f_equal. ring.
Qed.

Lemma abs_scale (a x : Qc) : 0 < a -> Num.abs (a * x) = a * Num.abs x.
Proof.
  intros Ha. unfold Num.abs. rewrite (leb_0_scale a x Ha).
  destruct (Num.leb 0 x); ring.
Qed.

Lemma eqb_0_scale (a x : Qc) : 0 < a -> Num.eqb (a * x) 0 = Num.eqb x 0.
Proof.
  intros Ha. apply Qclt_not_eq in Ha.
  destruct (Num.eqb x 0) eqn:E.
  - apply Num_eqb_eq in E. subst x. apply Num_eqb_eq. ring.
  - apply Num_eqb_neq in E. apply Num_eqb_neq. intros H.
    apply Qcmult_integral in H as [H|H]; congruence.
Qed.

(** Scaling dividend and divisor by one positive factor does not change the
    quotient, whether finite, infinite or NaN. *)
Lemma fdiv_scale (a x y : Qc) :
  0 < a -> fdiv (Some (a * x)) (Some (a * y)) = fdiv (Some x) (Some y).
Proof.
  intros Ha. unfold fdiv.
  rewrite !eqb_0_scale, leb_0_scale by exact Ha.
  destruct (Num.eqb y 0) eqn:E; [reflexivity|].
  apply Num_eqb_neq in E. apply Qclt_not_eq in Ha.
  f_equal. field. split; congruence.
Qed.

(** X8. In exact rational arithmetic and with epsilon zero, MAD robustization
    does not see the unit of the column: multiplying every present entry by a
    positive factor leaves the result unchanged. *)
Theorem mad_robustize_col_scale (col : list cell) (a : Qc) :
  0 < a ->
  mad_robustize_col (map (option_map (fun v => a * v)) col) 0
  = mad_robustize_col col 0.
Proof.
  intros Ha.
  assert (series_median (map (option_map (fun v => a * v)) col)
          = option_map (fun m => a * m) (series_median col)) as Hmed.
  { unfold series_median. rewrite dropna_map_option.
    apply median_map; intros; [now apply leb_scale | apply mid_scale]. }
  assert (forall s,
             median_abs_deviation (map (option_map (fun v => a * v)) col) s
             = option_map (fun m => a * m) (median_abs_deviation col s))
    as Hmad.
  { intros s. unfold median_abs_deviation. rewrite dropna_map_option.
    rewrite (median_map (fun v => a * v))
      by (intros; (now apply leb_scale) || apply mid_scale).
    destruct (Num.median (dropna col)) as [med|]; simpl; [|reflexivity].
    rewrite map_map.
    rewrite (map_ext (fun x => Num.abs (a * x - a * med))
                     (fun x => a * Num.abs (x - med))).
    2:{ intros x. rewrite <- (abs_scale a _ Ha). f_equal. ring. }
    rewrite <- (map_map (fun x => Num.abs (x - med)) (fun q => a * q)).
    rewrite (median_map (fun v => a * v))
      by (intros; (now apply leb_scale) || apply mid_scale).
    destruct (Num.median (map (fun x => Num.abs (x - med)) (dropna col)));
      simpl; [|reflexivity].
    f_equal. unfold Qcdiv. ring. }
  unfold mad_robustize_col. rewrite Hmad, Hmed.
  unfold series_div_scalar, series_sub_scalar. rewrite !map_map.
  apply map_ext. intros [v|]; simpl; [|reflexivity].
  destruct (series_median col) as [med|]; simpl; [|reflexivity].
  destruct (median_abs_deviation col (1 / c14826)) as [m|]; simpl;
    [|reflexivity].
  replace (a * v - a * med) with (a * (v - med)) by ring.
  replace (a * m + 0) with (a * (m + 0)) by ring.
  now apply fdiv_scale.
Qed.

Lemma mad_robustize_col_scale_witness :
  mad_robustize_col (map (option_map (fun v => Num.of_Z 2 * v)) col_example) 0
  = mad_robustize_col col_example 0.
Proof.
  apply (mad_robustize_col_scale col_example (Num.of_Z 2)). reflexivity.
Defined.

(** ** Cell-count regression, continued *)

(** The feature columns after a returning call, when the cell-count column is
    not one of them. *)
Lemma regress_out_cell_counts_feature
    (h h' : gmap ref DataFrame) (r r' : ref) (df df' : DataFrame)
    (cc_col : string) (cc_rename : option string)
    (l : string) (xs rs : list cell) :
  h !! r = Some df ->
  wf_frame df = true ->
  is_feature cc_col = false ->
  regress_out_cell_counts r cc_col cc_rename h = (Ok r', h') ->
  h' !! r' = Some df' ->
  is_feature l = true ->
  In l (columns df) ->
  cc_rename <> Some l ->
  getitem df cc_col = Some (Numeric xs) ->
  getitem df' l = Some (Numeric rs) ->
  exists ys, getitem df l = Some (Numeric ys) /\ Ols.resid l ys xs = Ok rs.
Proof.
  intros Hr Hwf Hcc Hrun Hr' Hf Hin Hren Hx Hl'.
  apply regress_out_cell_counts_inv in Hrun
    as (d & h1 & d1 & Hr0 & Hloop & Hd1 & -> & ->).
  rewrite Hr in Hr0. injection Hr0 as <-.
  apply wf_frame_spec in Hwf as [Hnd _].
  assert (~ In cc_col (feature_cols_of df)) as Hnotin.
  { intros H. apply in_feature_cols_of in H as [_ H]. congruence. }
  destruct (regress_loop_inv r cc_col xs (feature_cols_of df) df h h1)
    as (d' & -> & _ & _ & Hres); auto using NoDup_feature_cols_of.
  { intros l0 Hl0. now apply in_feature_cols_of in Hl0 as [Hl0 _]. }
  destruct (Hres l) as (ys & rs' & Hy & Hfit & Hd').
  { apply in_feature_cols_of. auto. }
  assert (l <> cc_col) as Hlc by congruence.
  assert (rs' = rs) as ->; [|eauto].
  destruct cc_rename as [new|].
  - rewrite lookup_insert_eq in Hr'. injection Hr' as <-.
    rewrite lookup_insert_eq in Hd1.
    assert (Some d' = Some d1) as [= <-] by (apply Hd1; discriminate).
    rewrite getitem_rename_other in Hl'; congruence.
  - rewrite lookup_insert_eq in Hr'. injection Hr' as <-. congruence.
Qed.

Lemma dropna_resid_rows (beta : Qc * Qc) (ys : list cell) :
  forall xs,
    dropna (Ols.resid_rows beta ys xs)
    = map (fun p => Ols.resid1 beta (fst p) (snd p)) (complete_rows ys xs).
Proof.
  induction ys as [|[y|] ys IH]; intros [|[x|] xs]; simpl; rewrite ?IH;
    try reflexivity; destruct ys as [|[?|] ?]; reflexivity.
Qed.

(** The residuals of an accepted fit have mean zero. *)
Lemma series_mean_resid (label : string) (ys xs rs : list cell) :
  Ols.resid label ys xs = Ok rs -> series_mean rs = Some 0.
Proof.
  unfold Ols.resid.
  destruct (complete_rows ys xs) as [|p ps] eqn:E; [discriminate|].
  intros [= <-]. unfold series_mean. rewrite dropna_resid_rows, E.
  rewrite mean_nonempty by discriminate.
  rewrite resid_sum_zero by discriminate.
  f_equal. unfold Qcdiv. ring.
Qed.

(** X9. In exact rational arithmetic: when the cell-count column is not one
    of the features, every feature column a returning call leaves has mean
    zero over its present entries: the fit has an intercept, so the feature
    loses its level. *)
Theorem regress_out_cell_counts_mean_zero
    (h h' : gmap ref DataFrame) (r r' : ref) (df df' : DataFrame)
    (cc_col : string) (cc_rename : option string)
    (l : string) (xs rs : list cell) :
  h !! r = Some df ->
  wf_frame df = true ->
  is_feature cc_col = false ->
  regress_out_cell_counts r cc_col cc_rename h = (Ok r', h') ->
  h' !! r' = Some df' ->
  is_feature l = true ->
  In l (columns df) ->
  cc_rename <> Some l ->
  getitem df cc_col = Some (Numeric xs) ->
  getitem df' l = Some (Numeric rs) ->
  series_mean rs = Some 0.
Proof.
  intros Hr Hwf Hcc Hrun Hr' Hf Hin Hren Hx Hl'.
  destruct (regress_out_cell_counts_feature h h' r r' df df' cc_col cc_rename
              l xs rs) as (ys & _ & Hfit); auto.
  eapply series_mean_resid; eauto.
Qed.

Lemma regress_out_cell_counts_mean_zero_witness :
  exists rs,
    getitem
      [("Metadata_Count_Used"%string,
        Numeric [Some (Num.of_Z 1); Some (Num.of_Z 2); Some (Num.of_Z 3)]);
       ("Feature_X"%string, Numeric rs)] "Feature_X" = Some (Numeric rs)
    /\ series_mean rs = Some 0.
Proof.
  eexists. split; [reflexivity|].
  eapply (regress_out_cell_counts_mean_zero
            {[1%positive := frame_counts]} _ 1%positive 1%positive
            frame_counts _ "Metadata_Count" (Some "Metadata_Count_Used"%string)
            "Feature_X").
  - reflexivity.
  - reflexivity.
  - reflexivity.
  - vm_compute. reflexivity.
  - vm_compute. reflexivity.
  - reflexivity.
  - simpl. tauto.
  - discriminate.
  - reflexivity.
  - reflexivity.
Defined.

Lemma resid_rows_lookup (beta : Qc * Qc) (ys : list cell) :
  forall xs i q,
    Ols.resid_rows beta ys xs !! i = Some (Some q)
    <-> exists y x, ys !! i = Some (Some y) /\ xs !! i = Some (Some x)
                    /\ q = Ols.resid1 beta x y.
Proof.
  induction ys as [|y ys IH]; intros xs i q.
  - simpl. split; [discriminate | intros (y & x & H & _); discriminate].
  - destruct xs as [|x xs].
    + destruct i as [|i]; destruct y as [y|]; simpl.
      all: try (split; [discriminate | intros (y0 & x0 & _ & H & _); discriminate]).
      all: rewrite IH; split; intros (y0 & x0 & H1 & H2 & H3);
        try discriminate; exists y0, x0; auto.
    + destruct i as [|i].
      * destruct y as [y|], x as [x|]; simpl.
        all: split; [intros [= <-] | intros (y0 & x0 & [= <-] & [= <-] & ->)];
          eauto; try discriminate.
        all: try (intros (y0 & x0 & H1 & H2 & _); discriminate).
      * destruct y as [y|], x as [x|]; simpl; apply IH.
Qed.

Lemma length_resid_rows (beta : Qc * Qc) (ys : list cell) :
  forall xs, length (Ols.resid_rows beta ys xs) = length ys.
Proof.
  induction ys as [|[y|] ys IH]; intros [|[x|] xs]; simpl; auto.
Qed.

(** X10. When the cell-count column is not one of the features, a feature
    column keeps its length, and after the call an entry is present exactly
    on the rows where both the feature and the cell count were present: a
    missing cell count erases the features of its row. *)
Theorem regress_out_cell_counts_rows
    (h h' : gmap ref DataFrame) (r r' : ref) (df df' : DataFrame)
    (cc_col : string) (cc_rename : option string)
    (l : string) (xs rs : list cell) :
  h !! r = Some df ->
  wf_frame df = true ->
  is_feature cc_col = false ->
  regress_out_cell_counts r cc_col cc_rename h = (Ok r', h') ->
  h' !! r' = Some df' ->
  is_feature l = true ->
  In l (columns df) ->
  cc_rename <> Some l ->
  getitem df cc_col = Some (Numeric xs) ->
  getitem df' l = Some (Numeric rs) ->
  exists ys,
    getitem df l = Some (Numeric ys)
    /\ length rs = length ys
    /\ forall i,
        (exists q, rs !! i = Some (Some q))
        <-> (exists y x, ys !! i = Some (Some y) /\ xs !! i = Some (Some x)).
Proof.
  intros Hr Hwf Hcc Hrun Hr' Hf Hin Hren Hx Hl'.
  destruct (regress_out_cell_counts_feature h h' r r' df df' cc_col cc_rename
              l xs rs) as (ys & Hy & Hfit); auto.
  exists ys. split; [exact Hy|].
  unfold Ols.resid in Hfit.
  destruct (complete_rows ys xs) as [|p ps]; [discriminate|].
  injection Hfit as <-. split; [apply length_resid_rows|].
  intros i. split.
  - intros [q Hq]. apply resid_rows_lookup in Hq as (y & x & H1 & H2 & _).
    eauto.
  - intros (y & x & H1 & H2). eexists. apply resid_rows_lookup. eauto.
Qed.

Lemma regress_out_cell_counts_rows_witness :
  exists (rs ys : list cell),
    getitem frame_counts "Feature_X" = Some (Numeric ys)
    /\ length rs = length ys
    /\ forall i : nat,
        (exists q : Qc, rs !! i = Some (Some q))
        <-> (exists y x,
                ys !! i = Some (Some y)
                /\ [Some (Num.of_Z 1); Some (Num.of_Z 2); Some (Num.of_Z 3)]
                     !! i = Some (Some x)).
Proof.
  eexists.
  eapply (regress_out_cell_counts_rows
            {[1%positive := frame_counts]} _ 1%positive 1%positive
            frame_counts _ "Metadata_Count" None "Feature_X").
  - reflexivity.
  - reflexivity.
  - reflexivity.
  - vm_compute. reflexivity.
  - vm_compute. reflexivity.
  - reflexivity.
  - simpl. tauto.
  - discriminate.
  - reflexivity.
  - reflexivity.
Defined.

(** The loop keeps the labels, and the columns it is not asked to fit. *)
Lemma regress_loop_frame (r : ref) (cc_col : string)
    (feature_cols : list string) :
  forall (d : DataFrame) (h h' : gmap ref DataFrame),
    (forall l, In l feature_cols -> In l (columns d)) ->
    h !! r = Some d ->
    regress_loop r cc_col feature_cols h = (Ok tt, h') ->
    exists d',
      h' = <[r := d']> h
      /\ columns d' = columns d
      /\ (forall l, ~ In l feature_cols -> getitem d' l = getitem d l).
Proof.
  induction feature_cols as [|f rest IH]; intros d h h' Hcols Hr Hrun.
  - injection Hrun as <-. exists d. split; [|auto].
    symmetry. now apply insert_id.
  - simpl in Hrun. unfold deref in Hrun. rewrite Hr in Hrun.
    destruct (ols_resid d f cc_col) as [rs0|e] eqn:Hfit; [|discriminate].
    unfold assign in Hrun.
    set (d1 := setitem d f (Numeric rs0)) in *.
    assert (columns d1 = columns d) as Hc1.
    { apply columns_setitem. apply Hcols. now left. }
    destruct (IH d1 (<[r := d1]> h) h') as (d' & Hh' & Hc' & Hout).
    + intros l Hl. rewrite Hc1. apply Hcols. now right.
    + apply lookup_insert_eq.
    + exact Hrun.
    + exists d'. split; [|split].
      * rewrite Hh'. apply insert_insert_eq.
      * congruence.
      * intros l Hl. rewrite Hout by (intros ?; apply Hl; now right).
        unfold d1. apply getitem_setitem_ne. intros ->. apply Hl. now left.
Qed.

Lemma columns_rename (d : DataFrame) (old new : string) :
  columns (rename d old new)
  = map (fun l => if String.eqb l old then new else l) (columns d).
Proof.
  unfold columns, rename. rewrite !map_map. apply map_ext.
  intros [l c]. simpl. now destruct (String.eqb l old).
Qed.

(** X11. A returning call of [regress_out_cell_counts] returns the reference
    it was given and changes only the frame behind it, in place; the labels
    stay in order, the cell-count column taking its new name when one is
    given; and every [Metadata_] column other than the cell-count column and
    its new name keeps its data. *)
Theorem regress_out_cell_counts_frame
    (h h' : gmap ref DataFrame) (r r' : ref) (df : DataFrame)
    (cc_col : string) (cc_rename : option string) :
  h !! r = Some df ->
  regress_out_cell_counts r cc_col cc_rename h = (Ok r', h') ->
  r' = r
  /\ exists df',
      h' = <[r := df']> h
      /\ columns df' = map (relabel cc_col cc_rename) (columns df)
      /\ (forall l, is_feature l = false -> l <> cc_col ->
                    cc_rename <> Some l ->
                    getitem df' l = getitem df l).
Proof.
  intros Hr Hrun.
  apply regress_out_cell_counts_inv in Hrun
    as (d & h1 & d1 & Hr0 & Hloop & Hd1 & -> & ->).
  rewrite Hr in Hr0. injection Hr0 as <-.
  split; [reflexivity|].
  destruct (regress_loop_frame r cc_col (feature_cols_of df) df h h1)
    as (d' & -> & Hcols & Hout); auto.
  { intros l Hl. now apply in_feature_cols_of in Hl as [Hl _]. }
  assert (forall l, is_feature l = false -> getitem d' l = getitem df l)
    as Hmeta.
  { intros l Hl. apply Hout. intros H.
    apply in_feature_cols_of in H as [_ H]. congruence. }
  destruct cc_rename as [new|].
  - rewrite lookup_insert_eq in Hd1.
    assert (Some d' = Some d1) as [= <-] by (apply Hd1; discriminate).
    exists (rename d' cc_col new). split; [apply insert_insert_eq|]. split.
    + rewrite columns_rename, Hcols. reflexivity.
    + intros l Hl Hne Hren.
      rewrite getitem_rename_other by congruence. now apply Hmeta.
  - exists d'. split; [reflexivity|]. split.
    + rewrite Hcols. symmetry. apply map_id.
    + intros l Hl _ _. now apply Hmeta.
Qed.

Lemma regress_out_cell_counts_frame_witness :
  exists h',
    1%positive = 1%positive
    /\ exists df',
        h' = <[1%positive := df']> ({[1%positive := frame_cells]}
                                     : gmap ref DataFrame)
        /\ columns df'
           = map (relabel "Cells" (Some "Cells_Used"%string))
                 (columns frame_cells)
        /\ (forall l, is_feature l = false -> l <> "Cells"%string ->
                      Some "Cells_Used"%string <> Some l ->
                      getitem df' l = getitem frame_cells l).
Proof.
  eexists.
  eapply (regress_out_cell_counts_frame {[1%positive := frame_cells]} _
            1%positive 1%positive frame_cells "Cells"
            (Some "Cells_Used"%string)).
  - reflexivity.
  - vm_compute. reflexivity.
Defined.

(** ** The loader, continued *)

Module LoaderMore.
Import Loader LoaderSpec LoaderOutcome.

Section load.

Variable s3 : string -> list string -> result remote.

(** X13. The checks of [load] are made in the order output, columns,
    component, plate, and the first that fails decides the error: a bad
    output wins over everything, bad columns over component and plate, a bad
    component over the plate; and a list of columns has been logged by the
    time the component or the plate is rejected. *)
Theorem load_check_order (dataset source component : string)
    (batch plate : option string) (columns output : pyval) :
  (bad_output output = true ->
   exists msg,
     load s3 dataset source component batch plate columns output
     = ([], Raise (AssertionError msg))
     /\ In msg ["`output` must be a string";
                "`output` must end with .parquet"]%string)
  /\ (bad_output output = false -> bad_columns columns = true ->
      load s3 dataset source component batch plate columns output
      = ([], Raise (AssertionError "`columns` must be a list")))
  /\ (bad_output output = false -> bad_columns columns = false ->
      bad_component component = true ->
      load s3 dataset source component batch plate columns output
      = (match columns with
         | PyList l => [LogInfo (LoadingColumns l)]
         | _ => []
         end,
         Raise (AssertionError
                  "`component` must be 'profiles' or 'load_data_csv'")))
  /\ (bad_output output = false -> bad_columns columns = false ->
      bad_component component = false -> bad_plate batch plate = true ->
      load s3 dataset source component batch plate columns output
      = (match columns with
         | PyList l => [LogInfo (LoadingColumns l)]
         | _ => []
         end,
         Raise (AssertionError "`plate` must be None if `batch` is None"))).
Proof.
  unfold bad_output, bad_columns, bad_component, bad_plate, load.
  repeat split.
  - intros H.
    destruct output as [|o|lo|]; [discriminate H | | |].
    + apply negb_true_iff in H. rewrite H. simpl. eexists.
      split; [reflexivity | simpl; tauto].
    + simpl. eexists. split; [reflexivity | simpl; tauto].
    + simpl. eexists. split; [reflexivity | simpl; tauto].
  - intros Ho Hc.
    destruct output as [|o|lo|]; try discriminate Ho;
      [| apply negb_false_iff in Ho; rewrite Ho];
      destruct columns as [|sc|lc|]; try discriminate Hc; reflexivity.
  - intros Ho Hc Hk. apply negb_true_iff in Hk. rewrite Hk.
    destruct output as [|o|lo|]; try discriminate Ho;
      [| apply negb_false_iff in Ho; rewrite Ho];
      destruct columns as [|sc|lc|]; try discriminate Hc;
      reflexivity.
  - intros Ho Hc Hk Hp. apply negb_false_iff in Hk. rewrite Hk.
    destruct batch as [b|], plate as [p|]; try discriminate Hp.
    destruct output as [|o|lo|]; try discriminate Ho;
      [| apply negb_false_iff in Ho; rewrite Ho];
      destruct columns as [|sc|lc|]; try discriminate Hc;
      reflexivity.
Qed.

(** The part of [load] after the checks. *)
Lemma load_checked (dataset source component : string)
    (batch plate : option string) (columns output : pyval) :
  precondition_violated component batch plate columns output = false ->
  load s3 dataset source component batch plate columns output
  = let src := dataset_source dataset source batch plate in
    let pre := preamble columns src ++ [DsDataset src (partitioning component)] in
    match s3 src (partitioning component) with
    | Raise e => (pre, Raise e)
    | Ok found =>
        let pre :=
          pre ++ [LogInfo (FoundFiles (length (files found)));
                  LogInfo (LoadComponent component);
                  ToTable (projection columns)] in
        match to_table found (projection columns) with
        | Raise e => (pre, Raise e)
        | Ok df =>
            match output with
            | PyStr o =>
                (pre ++ [LogInfo (WritingTo component o); WriteTable o],
                 Ok None)
            | _ => (pre, Ok (Some df))
            end
        end
    end.
Proof.
  unfold precondition_violated. intros H.
  apply orb_false_elim in H as [H Hp].
  apply orb_false_elim in H as [H Hc].
  apply orb_false_elim in H as [Ho Hl].
  unfold load, partitioning, preamble.
  remember (dataset_source dataset source batch plate) as pth eqn:Epth.
  clear Epth.
  unfold bad_component in Hc. apply negb_false_iff in Hc. rewrite Hc.
  remember ["dataset"; "source"; "workspace"; component; "batch"; "plate"]%string
    as part eqn:Epart. clear Epart.
  destruct output as [|o|lo|]; simpl in Ho; try discriminate Ho;
    [| apply negb_false_iff in Ho; rewrite Ho ];
    (destruct columns as [|sc|lc|]; simpl in Hl; try discriminate Hl);
    (destruct batch as [b|], plate as [p|]; simpl in Hp; try discriminate Hp);
    cbn [bind T_monad ret assert emit lift fst snd app projection];
    (destruct (s3 pth part) as [found|e]; cbn;
     [destruct (to_table found _) as [df|e]; cbn|]);
    reflexivity.
Qed.

Lemma reads_app (t t' : list event) : reads (t ++ t') = reads t ++ reads t'.
Proof.
  induction t as [|[] t IH]; simpl; auto. now rewrite IH.
Qed.

Lemma writes_app (t t' : list event) : writes (t ++ t') = writes t ++ writes t'.
Proof.
  induction t as [|[] t IH]; simpl; auto. now rewrite IH.
Qed.

Lemma reads_preamble (columns : pyval) (src : string) :
  reads (preamble columns src) = [].
Proof. now destruct columns. Qed.

Lemma writes_preamble (columns : pyval) (src : string) :
  writes (preamble columns src) = [].
Proof. now destruct columns. Qed.

(** X14. After the checks, an exception of the object store or of the table
    read is the exception of [load]: when the dataset is not found no table
    is read, and in both cases nothing is written. *)
Theorem load_propagates (dataset source component : string)
    (batch plate : option string) (columns output : pyval) :
  precondition_violated component batch plate columns output = false ->
  (forall e,
      s3 (dataset_source dataset source batch plate) (partitioning component)
      = Raise e ->
      snd (load s3 dataset source component batch plate columns output)
      = Raise e
      /\ reads (fst (load s3 dataset source component batch plate columns
                       output)) = []
      /\ writes (fst (load s3 dataset source component batch plate columns
                        output)) = [])
  /\ (forall found e,
         s3 (dataset_source dataset source batch plate) (partitioning component)
         = Ok found ->
         to_table found (projection columns) = Raise e ->
         snd (load s3 dataset source component batch plate columns output)
         = Raise e
         /\ writes (fst (load s3 dataset source component batch plate columns
                           output)) = []).
Proof.
  intros H. rewrite (load_checked _ _ _ _ _ _ _ H). cbv zeta. split.
  - intros e He. rewrite He. simpl.
    rewrite reads_app, writes_app, reads_preamble, writes_preamble. auto.
  - intros found e Hf He. rewrite Hf, He. simpl.
    rewrite !writes_app, writes_preamble. auto.
Qed.

(** X15. After the checks, with the dataset found and the table read, [load]
    reads the table once with the projection given by [columns]; without an
    output it returns the table and writes nothing; with an output it writes
    once, to that file, and returns nothing. *)
Theorem load_returns (dataset source component : string)
    (batch plate : option string) (columns output : pyval)
    (found : remote) (df : DataFrame) :
  precondition_violated component batch plate columns output = false ->
  s3 (dataset_source dataset source batch plate) (partitioning component)
  = Ok found ->
  to_table found (projection columns) = Ok df ->
  snd (load s3 dataset source component batch plate columns output)
  = Ok match output with
       | PyStr _ => None
       | _ => Some df
       end
  /\ reads (fst (load s3 dataset source component batch plate columns output))
     = [projection columns]
  /\ writes (fst (load s3 dataset source component batch plate columns output))
     = match output with
       | PyStr o => [o]
       | _ => []
       end.
Proof.
  intros H Hf Hd. rewrite (load_checked _ _ _ _ _ _ _ H). cbv zeta.
  rewrite Hf, Hd.
  destruct output; simpl;
    rewrite ?reads_app, ?writes_app, ?reads_preamble, ?writes_preamble; auto.
Qed.

End load.

Lemma load_check_order_witness :
  exists msg,
    load store_example "cpg0016-jump" "source_4" "images" None None
      (PyStr "Metadata_Well") (PyStr "out.csv")
    = ([], Raise (AssertionError msg))
    /\ In msg ["`output` must be a string";
                "`output` must end with .parquet"]%string.
Proof.
  apply (load_check_order store_example "cpg0016-jump" "source_4" "images"
           None None (PyStr "Metadata_Well") (PyStr "out.csv")).
  reflexivity.
Defined.

Lemma load_propagates_witness :
  snd (load store_empty "cpg0016-jump" "source_4" "profiles" None None
         PyNone (PyStr "out.parquet"))
  = Raise (ValueError "cellpainting-gallery/cpg0016-jump/source_4/workspace/profiles")
  /\ reads (fst (load store_empty "cpg0016-jump" "source_4" "profiles" None
                    None PyNone (PyStr "out.parquet"))) = []
  /\ writes (fst (load store_empty "cpg0016-jump" "source_4" "profiles" None
                     None PyNone (PyStr "out.parquet"))) = [].
Proof.
  apply (load_propagates store_empty "cpg0016-jump" "source_4" "profiles"
           None None PyNone (PyStr "out.parquet")); reflexivity.
Defined.

Lemma load_returns_witness :
  snd (load store_example "cpg0016-jump" "source_4" "profiles"
         (Some "2021_06_14_Batch6"%string) None
         (PyList ["Metadata_Well"%string]) PyNone)
  = Ok (Some frame_example)
  /\ reads (fst (load store_example "cpg0016-jump" "source_4" "profiles"
                    (Some "2021_06_14_Batch6"%string) None
                    (PyList ["Metadata_Well"%string]) PyNone))
     = [Some ["Metadata_Well"%string]]
  /\ writes (fst (load store_example "cpg0016-jump" "source_4" "profiles"
                     (Some "2021_06_14_Batch6"%string) None
                     (PyList ["Metadata_Well"%string]) PyNone))
     = [].
Proof.
  apply (load_returns store_example "cpg0016-jump" "source_4" "profiles"
           (Some "2021_06_14_Batch6"%string) None
           (PyList ["Metadata_Well"%string]) PyNone
           {| files := ["part-0.parquet"%string];
              to_table := fun _ => Ok frame_example |}); reflexivity.
Defined.

End LoaderMore.

Module Suffix.
Import Loader.

Lemma append_cons (c : ascii) (a b : string) :
  (String c a ++ b = String c (a ++ b))%string.
Proof. reflexivity. Qed.

Lemma length_append (a b : string) :
  String.length (a ++ b) = (String.length a + String.length b)%nat.
Proof.
  induction a as [|c a IH]; [reflexivity|].
  rewrite append_cons. simpl. now rewrite IH.
Qed.

Lemma substring_full (s : string) : substring 0 (String.length s) s = s.
Proof. induction s as [|c s IH]; simpl; [reflexivity | now rewrite IH]. Qed.

Lemma substring_skip (p s : string) (m : nat) :
  substring (String.length p) m (p ++ s) = substring 0 m s.
Proof.
  induction p as [|c p IH]; [reflexivity|].
  rewrite append_cons. simpl. exact IH.
Qed.

Lemma substring_split (s : string) :
  forall k, (k <= String.length s)%nat ->
            s = (substring 0 k s ++ substring k (String.length s - k) s)%string.
Proof.
  induction s as [|c s IH]; intros [|k] Hk; simpl in *; try lia.
  - reflexivity.
  - change (String c s = "" ++ String c (substring 0 (String.length s) s))%string.
    now rewrite substring_full.
  - rewrite append_cons. f_equal. apply IH. lia.
Qed.

(** [endswith] holds exactly of the strings that are some prefix followed by
    the suffix. *)
Lemma endswith_spec (s suffix : string) :
  endswith s suffix = true <-> exists p, s = (p ++ suffix)%string.
Proof.
  unfold endswith. split.
  - intros H. apply andb_prop in H as [Hle He].
    apply Nat.leb_le in Hle. apply String.eqb_eq in He.
    exists (substring 0 (String.length s - String.length suffix) s).
    rewrite (substring_split s (String.length s - String.length suffix)) at 1
      by lia.
    f_equal.
    replace (String.length s - (String.length s - String.length suffix))%nat
      with (String.length suffix) by lia.
    exact He.
  - intros [p ->]. rewrite length_append. apply andb_true_intro. split.
    + apply Nat.leb_le. lia.
    + replace (String.length p + String.length suffix - String.length suffix)%nat
        with (String.length p) by lia.
      rewrite substring_skip, substring_full. apply String.eqb_refl.
Qed.

Section load.

Variable s3 : string -> list string -> result remote.

(** X16. Whatever its other arguments, [load] stops at once, with nothing
    logged, on the assertion that the output must end with [.parquet]
    exactly when the output string is not of the form [p ++ ".parquet"]. *)
Theorem load_output_suffix (dataset source component : string)
    (batch plate : option string) (columns : pyval) (o : string) :
  load s3 dataset source component batch plate columns (PyStr o)
  = ([], Raise (AssertionError "`output` must end with .parquet"))
  <-> ~ exists p, o = (p ++ ".parquet")%string.
Proof.
  rewrite <- endswith_spec. unfold load.
  destruct (endswith o ".parquet") eqn:Eo.
  - split; [|intros H; now elim H].
    intros H. exfalso. revert H.
    destruct columns as [|sc|lc|];
      destruct (str_in component ["profiles"; "load_data_csv"]%string) eqn:Ec;
      destruct batch as [b|], plate as [p|];
      cbn [bind T_monad ret assert emit lift fst snd app];
      try discriminate;
      destruct (s3 _ _) as [found|e]; cbn;
      try discriminate;
      destruct (to_table found _) as [df|e]; cbn; discriminate.
  - split; [intros _; discriminate | intros _; reflexivity].
Qed.

End load.

End Suffix.

(** ** Edge cases *)

(** X17. The robustized column has the length of the column; and a column
    without any present entry - empty or all missing - has neither median
    nor MAD and gives NaN at every row, whatever epsilon. *)
Theorem mad_robustize_col_all_missing (col : list cell) (epsilon : Qc) :
  length (mad_robustize_col col epsilon) = length col
  /\ (dropna col = [] ->
      series_median col = None
      /\ median_abs_deviation col (1 / c14826) = None
      /\ mad_robustize_col col epsilon = map (fun _ => NaN) col).
Proof.
  split.
  - unfold mad_robustize_col, series_div_scalar, series_sub_scalar.
    now rewrite !length_map.
  - intros H. unfold mad_robustize_col, series_median, median_abs_deviation.
    rewrite H. simpl. repeat split.
    unfold series_div_scalar, series_sub_scalar. rewrite map_map.
    apply map_ext. now intros [a|].
Qed.

Lemma mad_robustize_col_all_missing_witness :
  series_median ([None; None] : list cell) = None
  /\ median_abs_deviation ([None; None] : list cell) (1 / c14826) = None
  /\ mad_robustize_col ([None; None] : list cell) 1
     = map (fun _ => NaN) ([None; None] : list cell).
Proof.
  apply (mad_robustize_col_all_missing ([None; None] : list cell) 1).
  reflexivity.
Defined.

Lemma regress_loop_app (r : ref) (cc_col : string) (a b : list string) :
  forall h,
    regress_loop r cc_col (a ++ b) h
    = match regress_loop r cc_col a h with
      | (Ok _, h1) => regress_loop r cc_col b h1
      | (Raise e, h1) => (Raise e, h1)
      end.
Proof.
  induction a as [|f a IH]; intros h; simpl; [reflexivity|].
  unfold deref. destruct (h !! r) as [d|]; [|reflexivity].
  destruct (ols_resid d f cc_col) as [rs|e]; [|reflexivity].
  unfold assign. apply IH.
Qed.

Lemma complete_rows_self (xs : list cell) :
  complete_rows xs xs = map (fun x => (x, x)) (dropna xs).
Proof.
  induction xs as [|[x|] xs IH]; simpl; [reflexivity | | exact IH].
  now rewrite IH.
Qed.

(** A column regressed on itself is fitted exactly. *)
Lemma resid1_self (ps : list (Qc * Qc)) (p : Qc * Qc) :
  (forall q, In q ps -> snd q = fst q) ->
  In p ps ->
  Ols.resid1 (Ols.params ps) (fst p) (snd p) = 0.
Proof.
  intros Hself Hin. rewrite (resid1_centered ps p Hin).
  assert (map snd ps = map fst ps) as Hmap by (now apply map_ext_in).
  assert (Ols.ybar ps = Ols.xbar ps) as Hbar.
  { unfold Ols.ybar, Ols.xbar. now rewrite Hmap. }
  rewrite (Hself p Hin), Hbar. unfold fitted_slope.
  destruct (Num.eqb (Ols.sxx ps) 0) eqn:E.
  - apply Num_eqb_eq in E. rewrite (sxx_zero ps p E Hin). ring.
  - apply Num_eqb_neq in E.
    assert (Ols.sxy ps = Ols.sxx ps) as ->.
    { unfold Ols.sxy, Ols.sxx. apply sum_map_ext_in.
      intros q Hq. now rewrite (Hself q Hq), Hbar. }
    now field.
Qed.

Lemma resid_rows_self (beta : Qc * Qc) (xs : list cell) :
  (forall x, In x (dropna xs) -> Ols.resid1 beta x x = 0) ->
  Ols.resid_rows beta xs xs = map (option_map (fun _ => 0)) xs.
Proof.
  induction xs as [|[x|] xs IH]; simpl; intros H; [reflexivity | |].
  - rewrite (H x) by now left. rewrite IH; [reflexivity|].
    intros x' Hx'. apply H. now right.
  - now rewrite IH.
Qed.

Lemma resid_self (label : string) (xs rs : list cell) :
  Ols.resid label xs xs = Ok rs -> rs = map (option_map (fun _ => 0)) xs.
Proof.
  unfold Ols.resid. rewrite complete_rows_self.
  destruct (map (fun x => (x, x)) (dropna xs)) as [|p ps] eqn:E;
    [discriminate|].
  intros [= <-]. apply resid_rows_self. intros x Hx.
  change (Ols.resid1 (Ols.params (p :: ps)) (fst (x, x)) (snd (x, x)) = 0).
  apply resid1_self.
  - intros q Hq. rewrite <- E in Hq.
    apply in_map_iff in Hq as (y & <- & _). reflexivity.
  - rewrite <- E. apply in_map_iff. eauto.
Qed.

(** X18. In exact rational arithmetic: when the column named for the cell
    counts is one of the feature columns - its label does not start with
    [Metadata_] - a returning call of [regress_out_cell_counts] has fitted it
    on itself: the column it leaves holds zero at every present entry.
    (In floating point the residuals of that fit are rounding errors, not
    exact zeros.) *)
Theorem regress_out_cell_counts_zeroes_feature_counts
    (h h' : gmap ref DataFrame) (r r' : ref) (df df' : DataFrame)
    (cc_col : string) (xs : list cell) :
  h !! r = Some df ->
  wf_frame df = true ->
  is_feature cc_col = true ->
  getitem df cc_col = Some (Numeric xs) ->
  regress_out_cell_counts r cc_col None h = (Ok r', h') ->
  h' !! r' = Some df' ->
  getitem df' cc_col = Some (Numeric (map (option_map (fun _ => 0)) xs)).
Proof.
  intros Hr Hwf Hf Hx Hrun Hr'.
  apply regress_out_cell_counts_inv in Hrun
    as (d & h1 & d1 & Hr0 & Hloop & _ & -> & ->).
  rewrite Hr in Hr0. injection Hr0 as <-.
  apply wf_frame_spec in Hwf as [Hnd _].
  pose proof (NoDup_feature_cols_of df Hnd) as Hndf.
  assert (In cc_col (feature_cols_of df)) as Hin.
  { apply in_feature_cols_of. split; [|exact Hf].
    apply getitem_In in Hx. change cc_col with (fst (cc_col, Numeric xs)).
    now apply in_map. }
  assert (forall l, In l (feature_cols_of df) -> In l (columns df)) as Hsub.
  { intros l Hl. now apply in_feature_cols_of in Hl as [Hl _]. }
  apply in_split in Hin as (pre & post & Esplit).
  rewrite Esplit in Hloop, Hndf, Hsub.
  apply NoDup_app in Hndf as (_ & Hpre & Hpost).
  apply NoDup_cons in Hpost as [Hpost _].
  rewrite list_elem_of_In in Hpost.
  assert (~ In cc_col pre) as Hnpre.
  { intros H. apply (Hpre cc_col); [now apply list_elem_of_In|].
    apply list_elem_of_In. now left. }
  rewrite regress_loop_app in Hloop.
  destruct (regress_loop r cc_col pre h) as [[[]|e] h0] eqn:Hl0;
    [|discriminate].
  destruct (regress_loop_frame r cc_col pre df h h0) as (d0 & -> & Hc0 & Ho0);
    auto.
  { intros l Hl. apply Hsub, in_or_app. now left. }
  simpl in Hloop. unfold deref in Hloop. rewrite lookup_insert_eq in Hloop.
  destruct (ols_resid d0 cc_col cc_col) as [rs|e] eqn:Hfit; [|discriminate].
  apply ols_resid_inv in Hfit as (ys & xs0 & Hy & Hx0 & Hres).
  rewrite Hy in Hx0. injection Hx0 as <-.
  rewrite (Ho0 cc_col Hnpre), Hx in Hy. injection Hy as <-.
  apply resid_self in Hres. subst rs.
  unfold assign in Hloop.
  set (d2 := setitem d0 cc_col (Numeric (map (option_map (fun _ => 0)) xs)))
    in *.
  destruct (regress_loop_frame r cc_col post d2 (<[r := d2]> (<[r := d0]> h)) h1)
    as (d3 & -> & _ & Ho3); auto.
  { intros l Hl. unfold d2. rewrite columns_setitem.
    - rewrite Hc0. apply Hsub, in_or_app. right. now right.
    - rewrite Hc0. apply Hsub, in_or_app. right. now left. }
  { apply lookup_insert_eq. }
  rewrite lookup_insert_eq in Hr'. injection Hr' as <-.
  rewrite (Ho3 cc_col Hpost). unfold d2. apply getitem_setitem_eq.
Qed.

Lemma regress_out_cell_counts_zeroes_feature_counts_witness :
  exists df',
    getitem df' "Cells"
    = Some (Numeric (map (option_map (fun _ => 0))
                         [Some (Num.of_Z 1); Some (Num.of_Z 2);
                          Some (Num.of_Z 3)])).
Proof.
  eexists.
  eapply (regress_out_cell_counts_zeroes_feature_counts
            {[1%positive := frame_cells]} _ 1%positive 1%positive
            frame_cells _ "Cells").
  - reflexivity.
  - reflexivity.
  - reflexivity.
  - reflexivity.
  - vm_compute. reflexivity.
  - vm_compute. reflexivity.
Defined.
